(** * gps: the SQL lexer of [lex.go]

    A shallow embedding of the scanner of package [gps] (file [lex.go]) and
    of the Go library functions it relies on, followed by the properties
    of the scanner.

    Go strings are byte sequences: they are modelled by [string], whose
    characters are the 256 byte values.  Offsets ([int]) and code points
    ([rune]) are modelled by [Z].  The token channel is modelled by the
    sequence of the tokens sent on it together with its closed flag. *)

From Stdlib Require Import ZArith List Bool Ascii String Lia.
Import ListNotations.

Local Open Scope string_scope.
Local Open Scope Z_scope.

(** ** Go strings *)

(** The numeric value of a byte. *)
Definition byte (c : ascii) : Z := Z.of_N (N_of_ascii c).

(** [len(s)]. *)
Definition len (s : string) : Z := Z.of_nat (String.length s).

(** [s[n:]] for a natural number [n]; everything is dropped when [n]
    exceeds the length. *)
Fixpoint drop (n : nat) (s : string) : string :=
  match n, s with
  | O, _ => s
  | S _, EmptyString => EmptyString
  | S n', String _ s' => drop n' s'
  end.

(** [s[:n]] for a natural number [n]. *)
Fixpoint take (n : nat) (s : string) : string :=
  match n, s with
  | O, _ => EmptyString
  | S _, EmptyString => EmptyString
  | S n', String c s' => String c (take n' s')
  end.

(** [s[lo:]] and [s[lo:hi]].  Go panics when [0 <= lo <= hi <= len(s)]
    fails; the scanner keeps its offsets within these bounds (see
    [gps.cursor_invariant]), so the panic is never reached and the model
    gives the in-range part of the slice there. *)
Definition from (s : string) (lo : Z) : string := drop (Z.to_nat lo) s.

Definition slice (s : string) (lo hi : Z) : string :=
  take (Z.to_nat (hi - lo)) (from s lo).

(** A code point written as a character constant: ['x'] in Go. *)
Definition rune (c : ascii) : Z := byte c.

(** ** Package [unicode/utf8] *)

Module utf8.

Definition RuneError : Z := 65533.

(** The table [first]: information about the first byte of an encoding.
    [0xF0] is an ASCII byte, [0xF1] an invalid one; otherwise the low three
    bits give the size and the high four the index into [acceptRanges]. *)
Definition first (b : Z) : Z :=
  if b <? 128 then 240
  else if b <? 194 then 241
  else if b <? 224 then 2
  else if b =? 224 then 19
  else if b <? 237 then 3
  else if b =? 237 then 35
  else if b <? 240 then 3
  else if b =? 240 then 52
  else if b <? 244 then 4
  else if b =? 244 then 68
  else 241.

(** The table [acceptRanges]: bounds of the second byte. *)
Definition acceptRanges (i : Z) : Z * Z :=
  if i =? 0 then (128, 191)
  else if i =? 1 then (160, 191)
  else if i =? 2 then (128, 159)
  else if i =? 3 then (144, 191)
  else if i =? 4 then (128, 143)
  else (0, 0).

(** Continuation bytes lie between [locb] and [hicb]. *)
Definition locb : Z := 128.
Definition hicb : Z := 191.

(** [utf8.DecodeRuneInString]: the first code point of [s] and its width in
    bytes; [(RuneError, 0)] on the empty string and [(RuneError, 1)] on an
    invalid encoding.  In the branch [x >= as] the Go code selects between
    the byte and [RuneError] with a mask made of the lowest bit of [x]. *)
Definition DecodeRuneInString (s : string) : Z * Z :=
  match s with
  | EmptyString => (RuneError, 0)
  | String c0 r0 =>
    let s0 := byte c0 in
    let x := first s0 in
    if 240 <=? x then ((if Z.odd x then RuneError else s0), 1)
    else
      let sz := Z.land x 7 in
      let accept := acceptRanges (Z.shiftr x 4) in
      if len s <? sz then (RuneError, 1)
      else
        match r0 with
        | EmptyString => (RuneError, 1)
        | String c1 r1 =>
          let s1 := byte c1 in
          if (s1 <? fst accept) || (snd accept <? s1) then (RuneError, 1)
          else if sz <=? 2
          then (Z.lor (Z.shiftl (Z.land s0 31) 6) (Z.land s1 63), 2)
          else
            match r1 with
            | EmptyString => (RuneError, 1)
            | String c2 r2 =>
              let s2 := byte c2 in
              if (s2 <? locb) || (hicb <? s2) then (RuneError, 1)
              else if sz <=? 3
              then (Z.lor (Z.lor (Z.shiftl (Z.land s0 15) 12)
                                 (Z.shiftl (Z.land s1 63) 6))
                          (Z.land s2 63), 3)
              else
                match r2 with
                | EmptyString => (RuneError, 1)
                | String c3 _ =>
                  let s3 := byte c3 in
                  if (s3 <? locb) || (hicb <? s3) then (RuneError, 1)
                  else (Z.lor (Z.lor (Z.lor (Z.shiftl (Z.land s0 7) 18)
                                            (Z.shiftl (Z.land s1 63) 12))
                                     (Z.shiftl (Z.land s2 63) 6))
                              (Z.land s3 63), 4)
                end
            end
        end
  end.

End utf8.

(** ** Package [strings] *)

Module strings.

(** [strings.ToUpper] on ASCII text: the letters [a]..[z] are mapped to
    [A]..[Z] and every other byte is kept.  The scanner applies it to runs
    of ASCII letters only (see [gps.expectKeyword]). *)
Definition upper (c : ascii) : ascii :=
  if (97 <=? byte c) && (byte c <=? 122)
  then ascii_of_N (N_of_ascii c - 32)
  else c.

Fixpoint ToUpper (s : string) : string :=
  match s with
  | EmptyString => EmptyString
  | String c s' => String (upper c) (ToUpper s')
  end.

(** [strings.IndexByte]: the offset of the first byte of [s] equal to
    [c], or [-1].  The scanner does not call it; the statements use it to
    say that a delimiter does not occur in a text. *)
Fixpoint IndexByte (s : string) (c : Z) : Z :=
  match s with
  | EmptyString => -1
  | String b s' =>
    if byte b =? c then 0
    else let i := IndexByte s' c in if i <? 0 then -1 else i + 1
  end.

End strings.

(** ** Package [fmt] *)

Module fmt.

(** The operands left over at the end of the format:
    [string=a, string=b]. *)
Fixpoint extra (a : list string) : string :=
  match a with
  | [] => ""
  | [x] => "string=" ++ x
  | x :: a' => "string=" ++ x ++ ", " ++ extra a'
  end.

(** [fmt.Sprintf] with string operands, for formats whose directives are
    a percent sign followed directly by the verb (no flags, width,
    precision or operand index).  [%s] and [%v] print the next operand,
    [%%] prints a percent sign, a directive without operand prints
    [%!verb(MISSING)], a percent sign ending the format [%!(NOVERB)], any
    other verb [%!verb(string=operand)], and unused operands are reported
    after the text as [%!(EXTRA string=operand)].  The verbs [x], [X], [q]
    and [T], which print a string in another form, are not modelled: the
    formats of [lex.go] do not use them. *)
Fixpoint Sprintf (format : string) (a : list string) : string :=
  match format with
  | EmptyString =>
    match a with
    | [] => ""
    | _ :: _ => "%!(EXTRA " ++ extra a ++ ")"
    end
  | String "%" EmptyString => "%!(NOVERB)"
  | String "%" (String "%" rest) => String "%" (Sprintf rest a)
  | String "%" (String verb rest) =>
    match a with
    | [] => "%!" ++ String verb "(MISSING)" ++ Sprintf rest []
    | x :: a' =>
      if (verb =? "s")%char || (verb =? "v")%char
      then x ++ Sprintf rest a'
      else "%!" ++ String verb "(string=" ++ x ++ ")" ++ Sprintf rest a'
    end
  | String c rest => String c (Sprintf rest a)
  end.

End fmt.

(** ** Package [gps] *)

Module gps.

(** *** Tokens *)

Inductive TokenType : Set :=
  | Error | EOF | Star | Sep | Dot | Op | Paren | Literal | Number
  | String | DblString
  | Select | Distinct | From | Where | Group | Order | By | Having | Limit
  | Join | Left | Right | Inner | Outer | On | As | Union | All | And | Or
  | Between | True | False | Null | Is | Not | Like | Exists.

(** The integer value of a token kind: the constants are numbered by
    [iota], starting with [Error = 0]. *)
Definition iota (t : TokenType) : Z :=
  match t with
  | Error => 0 | EOF => 1 | Star => 2 | Sep => 3 | Dot => 4 | Op => 5
  | Paren => 6 | Literal => 7 | Number => 8 | String => 9 | DblString => 10
  | Select => 11 | Distinct => 12 | From => 13 | Where => 14 | Group => 15
  | Order => 16 | By => 17 | Having => 18 | Limit => 19 | Join => 20
  | Left => 21 | Right => 22 | Inner => 23 | Outer => 24 | On => 25
  | As => 26 | Union => 27 | All => 28 | And => 29 | Or => 30
  | Between => 31 | True => 32 | False => 33 | Null => 34 | Is => 35
  | Not => 36 | Like => 37 | Exists => 38
  end.

(** [type Token struct { Type TokenType; Literal string }]. *)
Record Token : Set := mkToken { Type_ : TokenType; Literal_ : string }.

(** The zero value of [Token]: kind number 0 and the empty literal. *)
Definition zeroToken : Token := mkToken Error "".

(** *** The token channel

    [tokens chan Token] is unbuffered, with the driver as only sender and
    the caller of [Tokenize] as only receiver, so the tokens are received
    in the order they are sent.  A channel is modelled by the sequence of
    all tokens sent so far and by whether it has been closed. *)
Record chan : Set := mkChan { sent : list Token; closed : bool }.

Definition make : chan := mkChan [] false.

Definition send (c : chan) (t : Token) : chan :=
  mkChan (sent c ++ [t])%list (closed c).

Definition close (c : chan) : chan := mkChan (sent c) true.

(** The receive number [k] (counting from 0) on the channel: the token
    sent at rank [k]; the zero value when the channel was closed after
    fewer sends; [None] when the receiver is still waiting. *)
Definition recv (c : chan) (k : nat) : option Token :=
  match nth_error (sent c) k with
  | Some t => Some t
  | None => if closed c then Some zeroToken else None
  end.

(** *** The lexer *)

Record Lexer : Set := mkLexer {
  name : string;
  input : string;
  start : Z;
  pos : Z;
  tokens : chan
}.

Definition set_start (l : Lexer) (v : Z) : Lexer :=
  mkLexer (name l) (input l) v (pos l) (tokens l).

Definition set_pos (l : Lexer) (v : Z) : Lexer :=
  mkLexer (name l) (input l) (start l) v (tokens l).

Definition set_tokens (l : Lexer) (c : chan) : Lexer :=
  mkLexer (name l) (input l) (start l) (pos l) c.

(** [NewLexer]: the lexer the driver starts from. *)
Definition NewLexer (name input : string) : Lexer :=
  mkLexer name input 0 0 make.

Definition cache (l : Lexer) : string :=
  slice (input l) (start l) (pos l).

Definition emit (t : TokenType) (l : Lexer) : Lexer :=
  let l := set_tokens l (send (tokens l) (mkToken t (cache l))) in
  set_start l (pos l).

Definition ignore (l : Lexer) : Lexer := set_start l (pos l).

(** [next] returns the code point and moves the cursor. *)
Definition next (l : Lexer) : Z * Lexer :=
  let '(r, width) := utf8.DecodeRuneInString (from (input l) (pos l)) in
  (r, set_pos l (pos l + width)).

Definition backup (l : Lexer) : Lexer := set_pos l (start l).

Definition peek (l : Lexer) : Z :=
  fst (utf8.DecodeRuneInString (from (input l) (pos l))).

Definition errorf (format args : string) (l : Lexer) : Lexer :=
  let prefixed := fmt.Sprintf "ERROR: %s: %s" [name l; format] in
  set_tokens l (send (tokens l) (mkToken Error (fmt.Sprintf prefixed [args]))).

(** The literal [errorf] gives to its token. *)
Definition diagnostic (nm format args : string) : string :=
  fmt.Sprintf (fmt.Sprintf "ERROR: %s: %s" [nm; format]) [args].

(** *** The states

    A [State] is one of the five state functions; the [nil] state is
    [None]. *)
Inductive State : Set :=
  | ExpectAny | ExpectKeyword | ExpectString | ExpectLiteral | ExpectNumber.

Definition newline : ascii := "010"%char.

Definition isLetter (r : Z) : bool :=
  (rune "a" <=? r) && (r <=? rune "z") || (rune "A" <=? r) && (r <=? rune "Z").

Definition isDigit (r : Z) : bool := (rune "0" <=? r) && (r <=? rune "9").

(** The number of bytes after the cursor. *)
Definition remaining (l : Lexer) : nat := Z.to_nat (len (input l) - pos l).

(** [expectAny] calls itself after a comma; [fuel] bounds the depth of
    these calls. *)
Fixpoint expectAny_fuel (fuel : nat) (l : Lexer)
  : option (Lexer * option State) :=
  match fuel with
  | O => None
  | S fuel' =>
    if len (input l) <=? pos l then Some (emit EOF l, None)
    else
      let '(r, l) := next l in
      if r =? rune "'" then Some (l, Some ExpectString)
      else if r =? rune "`" then Some (l, Some ExpectLiteral)
      else if (r =? rune " ") || (r =? rune newline)
      then Some (ignore l, Some ExpectAny)
      else if r =? rune "*" then Some (emit Star l, Some ExpectAny)
      else if r =? rune "," then expectAny_fuel fuel' (emit Sep l)
      else if (r =? rune "=") || (r =? rune "+") || (r =? rune "-")
              || (r =? rune "/")
      then Some (emit Op l, Some ExpectAny)
      else if r =? rune "!" then
        let l :=
          if negb (peek l =? rune "=")
          then errorf "unsupported op: " (cache l) l else l in
        Some (emit Op l, Some ExpectAny)
      else if r =? rune ">" then
        let l :=
          if negb (peek l =? rune "=") && negb (peek l =? rune " ")
          then errorf "unsupported op: " (cache l) l else l in
        Some (emit Op l, Some ExpectAny)
      else if r =? rune "<" then
        let l :=
          if negb (peek l =? rune "=") && negb (peek l =? rune " ")
             && negb (peek l =? rune ">")
          then errorf "unsupported op: " (cache l) l else l in
        Some (emit Op l, Some ExpectAny)
      else if isDigit r then Some (backup l, Some ExpectNumber)
      else if isLetter r then Some (backup l, Some ExpectKeyword)
      else Some (l, None)
  end.

(** Each nested call has consumed a comma, so one more call than there
    are bytes left is enough (see [expectAny_fuel_enough]). *)
Definition expectAny (l : Lexer) : Lexer * option State :=
  match expectAny_fuel (S (remaining l)) l with
  | Some r => r
  | None => (l, None)
  end.

(** The loop [for r := l.peek(); letter(r); r = l.peek() { l.next() }];
    it has run to its end when the fuel is the number of bytes left (see
    [letters_exit]). *)
Fixpoint letters_fuel (fuel : nat) (l : Lexer) : Lexer :=
  match fuel with
  | O => l
  | S fuel' =>
    if isLetter (peek l) then letters_fuel fuel' (snd (next l)) else l
  end.

Definition letters (l : Lexer) : Lexer := letters_fuel (remaining l) l.

(** The [switch] of [expectKeyword]. *)
Definition keyword (s : string) : option TokenType :=
  if String.eqb s "SELECT" then Some Select
  else if String.eqb s "DISTINCT" then Some Distinct
  else if String.eqb s "FROM" then Some From
  else if String.eqb s "WHERE" then Some Where
  else if String.eqb s "GROUP" then Some Group
  else if String.eqb s "ORDER" then Some Order
  else if String.eqb s "BY" then Some By
  else if String.eqb s "HAVING" then Some Having
  else if String.eqb s "LIMIT" then Some Limit
  else if String.eqb s "JOIN" then Some Join
  else if String.eqb s "LEFT" then Some Left
  else if String.eqb s "RIGHT" then Some Right
  else if String.eqb s "INNER" then Some Inner
  else if String.eqb s "OUTER" then Some Outer
  else if String.eqb s "ON" then Some On
  else if String.eqb s "AS" then Some As
  else if String.eqb s "UNION" then Some Union
  else if String.eqb s "ALL" then Some All
  else None.

Definition expectKeyword (l : Lexer) : Lexer * option State :=
  let l := letters l in
  match keyword (strings.ToUpper (cache l)) with
  | Some t => (emit t l, Some ExpectAny)
  | None => (errorf "keyword doesn't exsit: %s" (cache l) l, None)
  end.

Definition expectString (l : Lexer) : Lexer * option State :=
  let '(r, l) := next l in
  if r =? rune "'" then (emit String l, Some ExpectAny)
  else (l, Some ExpectString).

(** Modelled from the spec: the identifier [t] that [expectLiteral] gives
    as the kind of its token is declared nowhere in [lex.go]; the
    specification reads it as the kind [Literal]. *)
Definition t : TokenType := Literal.

Definition expectLiteral (l : Lexer) : Lexer * option State :=
  let '(r, l) := next l in
  if r =? rune "`" then
    let l := set_tokens l (send (tokens l) (mkToken t (cache l))) in
    let l := set_start l (pos l) in
    (l, Some ExpectAny)
  else (l, Some ExpectLiteral).

(** The loop [for '0' <= l.peek() && l.peek() <= '9' { l.next() }]. *)
Fixpoint digits_fuel (fuel : nat) (l : Lexer) : Lexer :=
  match fuel with
  | O => l
  | S fuel' =>
    if isDigit (peek l) then digits_fuel fuel' (snd (next l)) else l
  end.

Definition digits (l : Lexer) : Lexer := digits_fuel (remaining l) l.

Definition expectNumber (l : Lexer) : Lexer * option State :=
  let l := digits l in
  let l := if peek l =? rune "." then snd (next l) else l in
  let l := digits l in
  (emit Number l, Some ExpectAny).

(** Calling a state. *)
Definition call (s : State) (l : Lexer) : Lexer * option State :=
  match s with
  | ExpectAny => expectAny l
  | ExpectKeyword => expectKeyword l
  | ExpectString => expectString l
  | ExpectLiteral => expectLiteral l
  | ExpectNumber => expectNumber l
  end.

(** *** The driver

    [loop n state l] runs at most [n] iterations of the loop of
    [transform], [for ...; state != nil; { state = state(l) }], and closes
    the channel when the loop is left.  The result has the state [None]
    exactly when [transform] has returned.  The driver is suspended at
    each send until the token is received: [loop] is its progress when
    the caller goes on calling [Tokenize]. *)
Fixpoint loop (n : nat) (state : option State) (l : Lexer)
  : Lexer * option State :=
  match state with
  | None => (set_tokens l (close (tokens l)), None)
  | Some s =>
    match n with
    | O => (l, Some s)
    | S n' => let '(l', state') := call s l in loop n' state' l'
    end
  end.

Definition transform (n : nat) (l : Lexer) : Lexer * option State :=
  loop n (Some ExpectAny) l.

(** The session on [input] after [n] iterations of the driver. *)
Definition session (name input : string) (n : nat) : Lexer * option State :=
  transform n (NewLexer name input).

(** *** The pull operation

    [Tokenize l k] is the result of the call number [k] (counting from 0)
    to [Tokenize], on a lexer whose driver has come as far as [l]: the
    token and the error ([nil] is [None]), or [None] while the call is
    still blocked on the channel. *)
Definition Tokenize (l : Lexer) (k : nat) : option (Token * option string) :=
  match recv (tokens l) k with
  | None => None
  | Some t =>
    if iota (Type_ t) =? iota Error then Some (t, Some "Error")
    else if iota (Type_ t) =? iota EOF then Some (t, Some "EOF")
    else Some (t, None)
  end.

(** The tokens sent so far. *)
Definition output (l : Lexer) : list Token := sent (tokens l).

(** ** Notions used in the statements *)

(** The width of the code point under the cursor. *)
Definition width (l : Lexer) : Z :=
  snd (utf8.DecodeRuneInString (from (input l) (pos l))).

(** The offsets of a lexer are in range. *)
Definition inv (l : Lexer) : Prop :=
  0 <= start l /\ start l <= pos l /\ pos l <= len (input l).

(** The lexer after [next]. *)
Definition advance (l : Lexer) : Lexer := set_pos l (pos l + width l).

(** [l'] is [l] with the cursor moved forward. *)
Definition advanced (l l' : Lexer) : Prop :=
  name l' = name l /\ input l' = input l /\ start l' = start l /\
  tokens l' = tokens l /\ pos l <= pos l' /\ pos l' <= len (input l).

(** The condition under which a state is entered: the pending text is
    empty, except in the two quoted states. *)
Definition at_entry (st : option State) (l : Lexer) : Prop :=
  match st with
  | Some ExpectAny | Some ExpectKeyword | Some ExpectNumber =>
    start l = pos l
  | _ => Logic.True
  end.

(** A token sent by a call that ends in the state [st']: an [Error]
    token with the diagnostic of one of the two calls to [errorf], or a
    token of another kind with a slice of the input; only a call that
    ends the scan sends [EOF], and an [Op] token is one byte long. *)
Definition emitted (nm inp : string) (st' : option State) (tk : Token)
  : Prop :=
  (Type_ tk = Error /\
   exists args,
     Literal_ tk = diagnostic nm "unsupported op: " args \/
     Literal_ tk = diagnostic nm "keyword doesn't exsit: %s" args) \/
  (Type_ tk <> Error /\
   exists a b,
     0 <= a /\ a <= b /\ b <= len inp /\ Literal_ tk = slice inp a b /\
     (Type_ tk = EOF -> st' = None) /\ (Type_ tk = Op -> b = a + 1)).

(** [l] is [l0] after some tokens have been sent. *)
Definition sent_ok (l0 l : Lexer) (st' : option State) : Prop :=
  name l = name l0 /\ input l = input l0 /\
  closed (tokens l) = closed (tokens l0) /\
  exists new,
    output l = (output l0 ++ new)%list /\
    Forall (emitted (name l0) (input l0) st') new.

(** [l] and [st'] are the result of a call of a state on [l0]. *)
Definition step_ok (l0 l : Lexer) (st' : option State) : Prop :=
  sent_ok l0 l st' /\ inv l /\ at_entry st' l.

(** Closing the channel, as [transform] does on leaving its loop. *)
Definition closing (l : Lexer) : Lexer := set_tokens l (close (tokens l)).

(** The configurations of the driver: the offsets are in range, the state
    is entered properly, the tokens sent are diagnostics or slices of the
    input, and no [EOF] has been sent while a state remains to be
    called. *)
Definition reached (nm inp : string) (l : Lexer) (st : option State) : Prop :=
  name l = nm /\ input l = inp /\ inv l /\ at_entry st l /\
  Forall (emitted nm inp st) (output l).

(** The cursor primitives, and the two operations on the channel that are
    not primitives of the cursor. *)
Inductive Primitive : Set :=
  | Next | Peek | Ignore | Backup | Emit (k : TokenType)
  | Errorf (format args : string) | Close.

(** The effect of a primitive on the lexer. *)
Definition primitive (p : Primitive) (l : Lexer) : Lexer :=
  match p with
  | Next => snd (next l)
  | Peek => l
  | Ignore => ignore l
  | Backup => backup l
  | Emit k => emit k l
  | Errorf format args => errorf format args l
  | Close => closing l
  end.

(** The lexer after a sequence of primitives. *)
Definition observe (ps : list Primitive) (l : Lexer) : Lexer :=
  fold_left (fun l p => primitive p l) ps l.

(** [l'] is [l] after some sequence of primitives. *)
Definition composed (l l' : Lexer) : Prop :=
  exists ps : list Primitive, l' = observe ps l.

(** Dispatch is about to read an operator in a form it does not support:
    ['!'] not followed by ['='], ['>'] followed by neither ['='] nor a
    space, ['<'] followed by neither ['='], a space nor ['>']. *)
Definition unsupported (l : Lexer) : Prop :=
  (peek l = rune "!" /\ peek (snd (next l)) <> rune "=") \/
  (peek l = rune ">" /\ peek (snd (next l)) <> rune "=" /\
   peek (snd (next l)) <> rune " ") \/
  (peek l = rune "<" /\ peek (snd (next l)) <> rune "=" /\
   peek (snd (next l)) <> rune " " /\ peek (snd (next l)) <> rune ">").

(** The code point is in one of the classes dispatch recognizes. *)
Definition recognized (r : Z) : bool :=
  (r =? rune "'") || (r =? rune "`") || (r =? rune " ")
  || (r =? rune newline) || (r =? rune "*") || (r =? rune ",")
  || (r =? rune "=") || (r =? rune "+") || (r =? rune "-")
  || (r =? rune "/") || (r =? rune "!") || (r =? rune ">")
  || (r =? rune "<") || isDigit r || isLetter r.

(** The state that scans the literal opened by the delimiter [d]. *)
Definition quoted (d : ascii) (st : State) : Prop :=
  (d = "'"%char /\ st = ExpectString) \/ (d = "`"%char /\ st = ExpectLiteral).

(** The kind of the token of a quoted state. *)
Definition quoted_kind (st : State) : TokenType :=
  match st with
  | ExpectLiteral => t
  | _ => String
  end.


(** The text has no percent sign. *)
Fixpoint plain (s : string) : bool :=
  match s with
  | EmptyString => true
  | String.String c s' => negb (c =? "%")%char && plain s'
  end.

(** The text is made of ASCII letters. *)
Fixpoint letters_only (s : string) : bool :=
  match s with
  | EmptyString => true
  | String.String c s' => isLetter (byte c) && letters_only s'
  end.

(** The query of the README and of [TestLex]. *)
Definition query : string := "select * from `table` where `a` = xyz".

(** ** Notions used in the further properties *)

(** A space or a newline: the bytes dispatch discards. *)
Definition is_blank (c : ascii) : bool :=
  (byte c =? rune " ") || (byte c =? rune newline).

(** The text is made of spaces and newlines. *)
Fixpoint blank (s : string) : bool :=
  match s with
  | EmptyString => true
  | String.String c s' => is_blank c && blank s'
  end.

(** The text without its spaces and newlines. *)
Fixpoint strip (s : string) : string :=
  match s with
  | EmptyString => EmptyString
  | String.String c s' =>
    if is_blank c then strip s' else String.String c (strip s')
  end.

(** The literals of the tokens that are not diagnostics, one after the
    other. *)
Fixpoint spelled (toks : list Token) : string :=
  match toks with
  | [] => ""
  | tk :: toks' =>
    (if iota (Type_ tk) =? iota Error then "" else Literal_ tk)
    ++ spelled toks'
  end.

(** The kinds for which some state sends a token. *)
Definition produced (k : TokenType) : bool :=
  match k with
  | Dot | Paren | DblString | And | Or | Between | True | False | Null
  | Is | Not | Like | Exists => false
  | _ => true
  end.

(** The text is made of ASCII digits. *)
Fixpoint digits_only (s : string) : bool :=
  match s with
  | EmptyString => true
  | String.String c s' => isDigit (byte c) && digits_only s'
  end.

(** Digits, then possibly a dot and digits. *)
Fixpoint number_tail (s : string) : bool :=
  match s with
  | EmptyString => true
  | String.String c s' =>
    if isDigit (byte c) then number_tail s'
    else (byte c =? rune ".") && digits_only s'
  end.

(** A digit, then digits, then possibly a dot and digits. *)
Definition number_shape (s : string) : bool :=
  match s with
  | EmptyString => false
  | String.String c s' => isDigit (byte c) && number_tail s'
  end.

(** A text of [k] commas. *)
Fixpoint commas (k : nat) : string :=
  match k with
  | O => ""
  | S k' => String.String "," (commas k')
  end.

(** [k] tokens of a comma. *)
Definition seps (k : nat) : list Token := repeat (mkToken Sep ",") k.

(** Dispatch is about to read an operator in a form it supports: ['!']
    followed by ['='], ['>'] followed by ['='] or a space, ['<'] followed
    by ['='], a space or ['>']. *)
Definition supported (l : Lexer) : Prop :=
  (peek l = rune "!" /\ peek (snd (next l)) = rune "=") \/
  (peek l = rune ">" /\
   (peek (snd (next l)) = rune "=" \/ peek (snd (next l)) = rune " ")) \/
  (peek l = rune "<" /\
   (peek (snd (next l)) = rune "=" \/ peek (snd (next l)) = rune " " \/
    peek (snd (next l)) = rune ">")).

(** What a state finds when it is entered: dispatch an empty pending
    text, the keyword state a letter and the number state a digit under
    the cursor, a quoted state its delimiter somewhere in the input. *)
Definition entered (st : option State) (l : Lexer) : Prop :=
  match st with
  | Some ExpectAny => start l = pos l
  | Some ExpectKeyword => start l = pos l /\ isLetter (peek l) = true
  | Some ExpectNumber => start l = pos l /\ isDigit (peek l) = true
  | Some ExpectString => 0 <= strings.IndexByte (input l) (rune "'")
  | Some ExpectLiteral => 0 <= strings.IndexByte (input l) (rune "`")
  | None => Logic.True
  end.

(** A bound on the calls left: twice the bytes after the cursor, and one
    more in the states that may be entered without a byte consumed. *)
Definition mu (st : option State) (l : Lexer) : Z :=
  match st with
  | None => 0
  | Some ExpectKeyword | Some ExpectNumber =>
    2 * (len (input l) - pos l)
  | Some _ => 2 * (len (input l) - pos l) + 1
  end.

(** The driver is in a quoted state at the end of the input. *)
Definition hung (st : option State) (l : Lexer) : Prop :=
  (st = Some ExpectString \/ st = Some ExpectLiteral) /\
  len (input l) <= pos l.

(** The [EOF] token, if there is one, is the last token, has an empty
    literal and was sent at the end of the input by the call that ended
    the scan. *)
Definition eof_last (st : option State) (l : Lexer) (toks : list Token)
  : Prop :=
  Forall (fun tk => Type_ tk <> EOF) toks \/
  (st = None /\ start l = len (input l) /\ pos l = len (input l) /\
   exists pre,
     toks = (pre ++ [mkToken EOF ""])%list /\
     Forall (fun tk => Type_ tk <> EOF) pre).

(** What a call of the state [s] on [l0] gives. *)
Definition call_spec (s : State) (l0 l : Lexer) (st' : option State)
  : Prop :=
  inv l /\ entered st' l /\ input l = input l0 /\ start l0 <= start l /\
  (st' = None \/ mu st' l < mu (Some s) l0 \/
   (st' = Some s /\ hung (Some s) l0 /\ hung st' l /\
    tokens l = tokens l0)) /\
  exists new,
    output l = (output l0 ++ new)%list /\
    Forall (fun tk => produced (Type_ tk) = true) new /\
    eof_last st' l new /\
    strip (spelled new) = strip (slice (input l0) (start l0) (start l)).

(** The configurations of the driver, for the further properties. *)
Definition scanned (inp : string) (l : Lexer) (st : option State) : Prop :=
  inv l /\ entered st l /\ input l = inp /\
  Forall (fun tk => produced (Type_ tk) = true) (output l) /\
  eof_last st l (output l) /\
  strip (spelled (output l)) = strip (slice inp 0 (start l)).


(** The lexer [l] with the cursor moved over [k] bytes and a comma token
    sent for each of them. *)
Definition after_commas (k : nat) (l : Lexer) : Lexer :=
  mkLexer (name l) (input l) (pos l + Z.of_nat k) (pos l + Z.of_nat k)
    (mkChan (sent (tokens l) ++ seps k)%list (closed (tokens l))).

(** One of the operators dispatch sends without looking further. *)
Definition simple_op (r : Z) : Prop :=
  r = rune "=" \/ r = rune "+" \/ r = rune "-" \/ r = rune "/".

(** ** Properties of the library functions *)

Lemma byte_range (c : ascii) : 0 <= byte c < 256.
Proof.
  unfold byte. pose proof (N_ascii_bounded c) as H. lia.
Qed.

Lemma len_nonneg (s : string) : 0 <= len s.
Proof. unfold len. lia. Qed.

Lemma length_drop (n : nat) (s : string) :
  String.length (drop n s) = (String.length s - n)%nat.
Proof.
  revert s. induction n as [|n IH]; intros [|c s]; simpl; auto.
Qed.

Lemma drop_drop (n m : nat) (s : string) :
  drop m (drop n s) = drop (n + m) s.
Proof.
  revert s. induction n as [|n IH]; intros [|c s]; simpl; auto.
  now destruct m.
Qed.

Lemma length_take (n : nat) (s : string) :
  String.length (take n s) = Nat.min n (String.length s).
Proof.
  revert s. induction n as [|n IH]; intros [|c s]; simpl; auto.
Qed.

Lemma len_from (s : string) (p : Z) :
  0 <= p <= len s -> len (from s p) = len s - p.
Proof.
  unfold len, from. intros H. rewrite length_drop. lia.
Qed.

Lemma from_from (s : string) (p w : Z) :
  0 <= p -> 0 <= w -> from (from s p) w = from s (p + w).
Proof.
  unfold from. intros Hp Hw. rewrite drop_drop.
  now rewrite Z2Nat.inj_add.
Qed.

Lemma len_slice (s : string) (lo hi : Z) :
  0 <= lo <= hi -> hi <= len s -> len (slice s lo hi) = hi - lo.
Proof.
  unfold slice, len, from. intros H1 H2.
  rewrite length_take, length_drop. unfold len in H2. lia.
Qed.

Lemma lor_lower_l (a b k : Z) :
  0 <= a -> 0 <= b -> 0 <= k -> 2 ^ k <= a -> 2 ^ k <= Z.lor a b.
Proof.
  intros Ha Hb Hk H.
  assert (0 < 2 ^ k) by (apply Z.pow_pos_nonneg; lia).
  apply Z.log2_le_pow2.
  - assert (0 <= Z.lor a b) by (apply Z.lor_nonneg; auto).
    destruct (Z.eq_dec (Z.lor a b) 0) as [E|]; [|lia].
    apply Z.lor_eq_0_iff in E. lia.
  - rewrite Z.log2_lor by assumption.
    apply Z.log2_le_pow2 in H; lia.
Qed.

Lemma lor_lower_r (a b k : Z) :
  0 <= a -> 0 <= b -> 0 <= k -> 2 ^ k <= b -> 2 ^ k <= Z.lor a b.
Proof.
  intros. rewrite Z.lor_comm. now apply lor_lower_l.
Qed.

Lemma land_low (a n : Z) :
  0 <= n -> Z.land a (2 ^ n - 1) = a mod 2 ^ n.
Proof.
  intros Hn. rewrite <- Z.land_ones by assumption.
  f_equal. rewrite Z.ones_equiv. lia.
Qed.

Lemma decode_empty : utf8.DecodeRuneInString "" = (utf8.RuneError, 0).
Proof. reflexivity. Qed.

Lemma decode_ascii (c : ascii) (rest : string) :
  byte c < 128 ->
  utf8.DecodeRuneInString (String.String c rest) = (byte c, 1).
Proof.
  intros H. unfold utf8.DecodeRuneInString, utf8.first.
  apply Z.ltb_lt in H. now rewrite H.
Qed.

Ltac split_if :=
  match goal with
  | |- context [if ?b then _ else _] => destruct b eqn:?
  end.

Lemma decode_width (s : string) :
  0 <= snd (utf8.DecodeRuneInString s) <= len s /\
  (s <> "" -> 1 <= snd (utf8.DecodeRuneInString s)).
Proof.
  destruct s as [|c0 [|c1 [|c2 [|c3 r]]]];
    unfold utf8.DecodeRuneInString, len; cbn [String.length];
    repeat split_if; cbn [snd]; try lia; split; try lia; congruence.
Qed.

Lemma first_cases (b : Z) :
  128 <= b < 256 ->
  utf8.first b = 241 \/
  (utf8.first b = 2 /\ 194 <= b < 224) \/
  (utf8.first b = 19 /\ b = 224) \/
  (utf8.first b = 3 /\ 225 <= b < 240) \/
  (utf8.first b = 35 /\ b = 237) \/
  (utf8.first b = 52 /\ b = 240) \/
  (utf8.first b = 4 /\ 241 <= b < 244) \/
  (utf8.first b = 68 /\ b = 244).
Proof.
  intros H. unfold utf8.first.
  repeat split_if; lia.
Qed.

Ltac bits_nonneg :=
  repeat first
    [ apply Z.lor_nonneg; split
    | apply Z.shiftl_nonneg
    | apply Z.land_nonneg; right; lia ].

Lemma land_masks (a : Z) :
  Z.land a 63 = a mod 64 /\ Z.land a 31 = a mod 32 /\
  Z.land a 15 = a mod 16 /\ Z.land a 7 = a mod 8.
Proof.
  repeat split.
  - apply (land_low a 6); lia.
  - apply (land_low a 5); lia.
  - apply (land_low a 4); lia.
  - apply (land_low a 3); lia.
Qed.

Lemma shiftl_consts (a : Z) :
  Z.shiftl a 6 = a * 64 /\ Z.shiftl a 12 = a * 4096 /\
  Z.shiftl a 18 = a * 262144.
Proof.
  repeat split; now rewrite Z.shiftl_mul_pow2 by lia.
Qed.

Lemma lor_128_l (a b : Z) :
  0 <= a -> 0 <= b -> 128 <= a -> 128 <= Z.lor a b.
Proof. intros. apply (lor_lower_l a b 7); auto. lia. Qed.

Lemma lor_128_r (a b : Z) :
  0 <= a -> 0 <= b -> 128 <= b -> 128 <= Z.lor a b.
Proof. intros. apply (lor_lower_r a b 7); auto. lia. Qed.

Ltac bits_leaf :=
  repeat match goal with
  | |- context [Z.shiftl ?a _] =>
    let E1 := fresh "Ea" in let E2 := fresh "Eb" in let E3 := fresh "Ec" in
    destruct (shiftl_consts a) as (E1 & E2 & E3);
    rewrite ?E1, ?E2, ?E3; clear E1 E2 E3
  end;
  repeat match goal with
  | |- context [Z.land ?a _] =>
    let E1 := fresh "Ea" in let E2 := fresh "Eb" in
    let E3 := fresh "Ec" in let E4 := fresh "Ed" in
    destruct (land_masks a) as (E1 & E2 & E3 & E4);
    rewrite ?E1, ?E2, ?E3, ?E4; clear E1 E2 E3 E4
  end;
  Z.to_euclidean_division_equations; lia.

Ltac bits_lower :=
  first
    [ solve [bits_leaf]
    | apply lor_128_l; [bits_nonneg | bits_nonneg | bits_lower]
    | apply lor_128_r; [bits_nonneg | bits_nonneg | bits_lower] ].

(** The entries of the tables, once the first byte is known. *)
Ltac decode_tables :=
  change (Z.odd 241) with true;
  try change (Z.land 2 7) with 2; try change (Z.shiftr 2 4) with 0;
  try change (Z.land 19 7) with 3; try change (Z.shiftr 19 4) with 1;
  try change (Z.land 3 7) with 3; try change (Z.shiftr 3 4) with 0;
  try change (Z.land 35 7) with 3; try change (Z.shiftr 35 4) with 2;
  try change (Z.land 52 7) with 4; try change (Z.shiftr 52 4) with 3;
  try change (Z.land 4 7) with 4; try change (Z.shiftr 4 4) with 0;
  try change (Z.land 68 7) with 4; try change (Z.shiftr 68 4) with 4;
  change (utf8.acceptRanges 0) with (128, 191);
  change (utf8.acceptRanges 1) with (160, 191);
  change (utf8.acceptRanges 2) with (128, 159);
  change (utf8.acceptRanges 3) with (144, 191);
  change (utf8.acceptRanges 4) with (128, 143);
  unfold utf8.locb, utf8.hicb, utf8.RuneError.

Lemma decode_high (c : ascii) (rest : string) :
  128 <= byte c ->
  128 <= fst (utf8.DecodeRuneInString (String.String c rest)).
Proof.
  intros H. pose proof (byte_range c) as Hc.
  unfold utf8.DecodeRuneInString.
  remember (byte c) as s0 eqn:Es0.
  destruct (first_cases s0 (conj H (proj2 Hc)))
    as [E|[[E R]|[[E R]|[[E R]|[[E R]|[[E R]|[[E R]|[E R]]]]]]]];
    rewrite E.
  all: decode_tables.
  all: destruct rest as [|c1 [|c2 [|c3 r]]].
  all: repeat split_if; cbn [fst snd] in *; try lia.
  all: repeat match goal with
       | |- context [byte ?c] =>
         pose proof (byte_range c); generalize dependent (byte c); intros
       end.
  all: repeat match goal with
       | H : (_ || _) = false |- _ => apply orb_false_elim in H; destruct H
       end.
  all: try bits_lower.
  all: idtac.
Qed.

Lemma decode_low (s : string) :
  fst (utf8.DecodeRuneInString s) < 128 ->
  exists c rest,
    s = String.String c rest /\ byte c = fst (utf8.DecodeRuneInString s) /\
    snd (utf8.DecodeRuneInString s) = 1.
Proof.
  destruct s as [|c rest]; [cbn; unfold utf8.RuneError; lia|].
  intros H. destruct (Z_lt_ge_dec (byte c) 128) as [L|G].
  - exists c, rest. now rewrite (decode_ascii c rest L).
  - pose proof (decode_high c rest) as D. lia.
Qed.

(** An ASCII byte is never taken as a continuation byte: the code point
    before it ends before it. *)
Lemma decode_before_ascii (pre : string) (q : ascii) (rest : string) :
  pre <> "" -> byte q < 128 ->
  snd (utf8.DecodeRuneInString (pre ++ String.String q rest)) <= len pre.
Proof.
  intros N Q. destruct pre as [|c0 pre]; [contradiction|].
  cbn [append]. pose proof (byte_range c0) as Hc.
  pose proof (len_nonneg pre) as Hl.
  assert (L : len (String.String c0 pre) = len pre + 1)
    by (unfold len; cbn [String.length]; lia).
  rewrite L. clear N L.
  destruct (Z_lt_ge_dec (byte c0) 128) as [A|A].
  { rewrite decode_ascii by assumption. cbn [snd]. lia. }
  unfold utf8.DecodeRuneInString.
  remember (byte c0) as s0 eqn:Es0.
  assert (B : 128 <= s0 < 256) by lia.
  destruct (first_cases s0 B)
    as [E|[[E R]|[[E R]|[[E R]|[[E R]|[[E R]|[[E R]|[E R]]]]]]]];
    rewrite E.
  all: decode_tables.
  all: destruct pre as [|c1 [|c2 [|c3 pre]]]; cbn [append].
  all: unfold len in *; cbn [String.length] in *.
  all: repeat split_if; cbn [fst snd] in *; try lia.
Qed.

(** ** The cursor *)

Lemma next_eq (l : Lexer) : next l = (peek l, set_pos l (pos l + width l)).
Proof.
  unfold next, peek, width.
  now destruct (utf8.DecodeRuneInString (from (input l) (pos l))).
Qed.

Lemma drop_all (n : nat) (s : string) :
  (String.length s <= n)%nat -> drop n s = "".
Proof.
  revert s. induction n as [|n IH]; intros [|c s]; simpl; intros H; auto.
  - lia.
  - apply IH. lia.
Qed.

Lemma from_end (s : string) (p : Z) : len s <= p -> from s p = "".
Proof.
  unfold from, len. intros H. apply drop_all. lia.
Qed.

Lemma width_bounds (l : Lexer) :
  0 <= pos l <= len (input l) ->
  0 <= width l /\ pos l + width l <= len (input l).
Proof.
  intros H. unfold width.
  pose proof (decode_width (from (input l) (pos l))) as [D _].
  rewrite len_from in D by assumption. lia.
Qed.

Lemma peek_end (l : Lexer) :
  len (input l) <= pos l -> peek l = utf8.RuneError /\ width l = 0.
Proof.
  intros H. unfold peek, width. now rewrite from_end.
Qed.

Lemma peek_low (l : Lexer) :
  peek l < 128 ->
  exists c rest,
    from (input l) (pos l) = String.String c rest /\ byte c = peek l /\
    width l = 1.
Proof. apply decode_low. Qed.

Lemma next_advance (l : Lexer) : next l = (peek l, advance l).
Proof. apply next_eq. Qed.

Lemma advanced_refl (l : Lexer) : inv l -> advanced l l.
Proof. unfold inv, advanced. intuition lia. Qed.

Lemma advanced_trans (l1 l2 l3 : Lexer) :
  advanced l1 l2 -> advanced l2 l3 -> advanced l1 l3.
Proof.
  unfold advanced. intros (A1 & A2 & A3 & A4 & A5 & A6) (B1 & B2 & B3 & B4 & B5 & B6).
  rewrite A2 in B6. repeat split; try congruence; lia.
Qed.

Lemma advanced_inv (l l' : Lexer) : inv l -> advanced l l' -> inv l'.
Proof.
  unfold inv, advanced. intros (I1 & I2 & I3) (A1 & A2 & A3 & A4 & A5 & A6).
  rewrite A2, A3. lia.
Qed.

Lemma advance_advanced (l : Lexer) : inv l -> advanced l (advance l).
Proof.
  intros (I1 & I2 & I3).
  destruct (width_bounds l) as [W1 W2]; [lia|].
  unfold advanced, advance; cbn. repeat split; lia.
Qed.

Lemma letters_fuel_advanced (fuel : nat) (l : Lexer) :
  inv l -> advanced l (letters_fuel fuel l).
Proof.
  revert l. induction fuel as [|fuel IH]; intros l I; cbn.
  - now apply advanced_refl.
  - destruct (isLetter (peek l)); [|now apply advanced_refl].
    rewrite next_advance; cbn [snd].
    pose proof (advance_advanced l I) as A.
    eapply advanced_trans; [exact A|]. apply IH.
    eapply advanced_inv; eauto.
Qed.

Lemma digits_fuel_advanced (fuel : nat) (l : Lexer) :
  inv l -> advanced l (digits_fuel fuel l).
Proof.
  revert l. induction fuel as [|fuel IH]; intros l I; cbn.
  - now apply advanced_refl.
  - destruct (isDigit (peek l)); [|now apply advanced_refl].
    rewrite next_advance; cbn [snd].
    pose proof (advance_advanced l I) as A.
    eapply advanced_trans; [exact A|]. apply IH.
    eapply advanced_inv; eauto.
Qed.

Lemma isLetter_low (r : Z) : isLetter r = true -> r < 128.
Proof.
  unfold isLetter. change (rune "z") with 122. change (rune "Z") with 90.
  lia.
Qed.

Lemma isDigit_low (r : Z) : isDigit r = true -> r < 128.
Proof.
  unfold isDigit. change (rune "9") with 57. lia.
Qed.

Lemma remaining_advance (l : Lexer) :
  peek l < 128 -> remaining (advance l) = (remaining l - 1)%nat.
Proof.
  intros H. destruct (peek_low l H) as (c & rest & _ & _ & W).
  unfold remaining, advance; cbn. rewrite W. lia.
Qed.

Lemma remaining_0 (l : Lexer) : remaining l = O -> len (input l) <= pos l.
Proof. unfold remaining. lia. Qed.

(** The loop of [expectKeyword] has run to its end. *)
Lemma letters_fuel_exit (fuel : nat) (l : Lexer) :
  (remaining l <= fuel)%nat -> isLetter (peek (letters_fuel fuel l)) = false.
Proof.
  revert l. induction fuel as [|fuel IH]; intros l H; cbn.
  - destruct (peek_end l) as [E _]; [apply remaining_0; lia|].
    now rewrite E.
  - destruct (isLetter (peek l)) eqn:L; [|assumption].
    rewrite next_advance; cbn [snd]. apply IH.
    rewrite remaining_advance by now apply isLetter_low. lia.
Qed.

Lemma letters_exit (l : Lexer) : isLetter (peek (letters l)) = false.
Proof. now apply letters_fuel_exit. Qed.

(** The loops of [expectNumber] have run to their end. *)
Lemma digits_fuel_exit (fuel : nat) (l : Lexer) :
  (remaining l <= fuel)%nat -> isDigit (peek (digits_fuel fuel l)) = false.
Proof.
  revert l. induction fuel as [|fuel IH]; intros l H; cbn.
  - destruct (peek_end l) as [E _]; [apply remaining_0; lia|].
    now rewrite E.
  - destruct (isDigit (peek l)) eqn:L; [|assumption].
    rewrite next_advance; cbn [snd]. apply IH.
    rewrite remaining_advance by now apply isDigit_low. lia.
Qed.

Lemma digits_exit (l : Lexer) : isDigit (peek (digits l)) = false.
Proof. now apply digits_fuel_exit. Qed.

Lemma keyword_kind (s : string) (k : TokenType) :
  keyword s = Some k -> 11 <= iota k.
Proof.
  unfold keyword.
  repeat match goal with
  | |- context [if ?b then _ else _] => destruct b
  end; intros E; inversion E; cbn; lia.
Qed.

(** ** One call of a state *)

Lemma sent_ok_refl (l : Lexer) (st' : option State) : sent_ok l l st'.
Proof.
  repeat split. exists []. split; [now rewrite app_nil_r | constructor].
Qed.

Lemma sent_ok_frame (l0 l l' : Lexer) (st' : option State) :
  sent_ok l0 l st' ->
  name l' = name l -> input l' = input l -> tokens l' = tokens l ->
  sent_ok l0 l' st'.
Proof.
  intros (N & I & C & new & O & F) N' I' T'.
  unfold sent_ok, output. rewrite N', I', T'. repeat split; auto.
  exists new. split; auto.
Qed.

Lemma sent_ok_send (l0 l : Lexer) (st' : option State) (tk : Token) :
  sent_ok l0 l st' -> emitted (name l0) (input l0) st' tk ->
  sent_ok l0 (set_tokens l (send (tokens l) tk)) st'.
Proof.
  intros (N & I & C & new & O & F) E.
  unfold sent_ok, output in *; cbn. repeat split; auto.
  exists (new ++ [tk])%list. split.
  - rewrite O. now rewrite app_assoc.
  - apply Forall_app. split; auto.
Qed.

Lemma sent_ok_errorf (l0 l : Lexer) (st' : option State) (f a : string) :
  sent_ok l0 l st' ->
  f = "unsupported op: " \/ f = "keyword doesn't exsit: %s" ->
  sent_ok l0 (errorf f a l) st'.
Proof.
  intros H F. unfold errorf. apply sent_ok_send; auto. left.
  split; [reflexivity|]. exists a. cbn [Literal_].
  destruct H as (N & _). rewrite N. fold (diagnostic (name l0) f a).
  destruct F as [-> | ->]; auto.
Qed.

Lemma sent_ok_emit (l0 l : Lexer) (st' : option State) (k : TokenType) :
  sent_ok l0 l st' -> inv l -> k <> Error ->
  (k = EOF -> st' = None) -> (k = Op -> pos l = start l + 1) ->
  sent_ok l0 (emit k l) st'.
Proof.
  intros H (I1 & I2 & I3) HN HE HO. unfold emit.
  eapply sent_ok_frame with
    (l := set_tokens l (send (tokens l) (mkToken k (cache l)))); auto.
  apply sent_ok_send; auto. right. split; [exact HN|].
  exists (start l), (pos l). cbn.
  destruct H as (_ & I & _). rewrite <- I.
  repeat split; auto.
Qed.

Lemma sent_ok_trans (l0 l1 l2 : Lexer) (st' : option State) :
  sent_ok l0 l1 st' -> sent_ok l1 l2 st' -> sent_ok l0 l2 st'.
Proof.
  intros (N & I & C & new & O & F) (N' & I' & C' & new' & O' & F').
  repeat split; try congruence.
  exists (new ++ new')%list. split.
  - rewrite O', O. now rewrite app_assoc.
  - apply Forall_app. split; auto. now rewrite <- I, <- N.
Qed.

Lemma inv_emit (k : TokenType) (l : Lexer) : inv l -> inv (emit k l).
Proof. unfold inv; cbn. lia. Qed.

Lemma inv_ignore (l : Lexer) : inv l -> inv (ignore l).
Proof. unfold inv; cbn. lia. Qed.

Lemma inv_backup (l : Lexer) : inv l -> inv (backup l).
Proof. unfold inv; cbn. lia. Qed.

Lemma inv_errorf (f a : string) (l : Lexer) : inv l -> inv (errorf f a l).
Proof. unfold inv; cbn. lia. Qed.

Lemma inv_advance (l : Lexer) : inv l -> inv (advance l).
Proof.
  intros I. eapply advanced_inv; eauto. now apply advance_advanced.
Qed.

Lemma sent_ok_advance (l : Lexer) (st' : option State) :
  sent_ok l (advance l) st'.
Proof. eapply sent_ok_frame; [apply sent_ok_refl | | | ]; reflexivity. Qed.

Lemma sent_ok_advanced (l l' : Lexer) (st' : option State) :
  advanced l l' -> sent_ok l l' st'.
Proof.
  intros (A1 & A2 & A3 & A4 & _).
  eapply sent_ok_frame; [apply sent_ok_refl | | | ]; auto.
Qed.

Lemma expectString_ok (l : Lexer) :
  inv l -> step_ok l (fst (expectString l)) (snd (expectString l)).
Proof.
  intros I. unfold expectString. rewrite next_advance.
  pose proof (inv_advance l I) as I1.
  destruct (peek l =? rune "'"); cbn [fst snd].
  - split; [|split].
    + apply sent_ok_emit; auto; try discriminate. apply sent_ok_advance.
    + now apply inv_emit.
    + reflexivity.
  - split; [|split]; auto. apply sent_ok_advance. exact Logic.I.
Qed.

Lemma expectLiteral_emit (l : Lexer) :
  expectLiteral l =
  if peek l =? rune "`" then (emit t (advance l), Some ExpectAny)
  else (advance l, Some ExpectLiteral).
Proof.
  unfold expectLiteral. rewrite next_advance. reflexivity.
Qed.

Lemma expectLiteral_ok (l : Lexer) :
  inv l -> step_ok l (fst (expectLiteral l)) (snd (expectLiteral l)).
Proof.
  intros I. rewrite expectLiteral_emit.
  pose proof (inv_advance l I) as I1.
  destruct (peek l =? rune "`"); cbn [fst snd].
  - split; [|split].
    + apply sent_ok_emit; auto; try discriminate. apply sent_ok_advance.
    + now apply inv_emit.
    + reflexivity.
  - split; [|split]; auto. apply sent_ok_advance. exact Logic.I.
Qed.

Lemma expectNumber_ok (l : Lexer) :
  inv l -> step_ok l (fst (expectNumber l)) (snd (expectNumber l)).
Proof.
  intros I. unfold expectNumber; cbn [fst snd].
  set (l1 := digits l).
  assert (A1 : advanced l l1) by now apply digits_fuel_advanced.
  set (l2 := if peek l1 =? rune "." then snd (next l1) else l1).
  assert (A2 : advanced l l2).
  { subst l2. destruct (peek l1 =? rune "."); auto.
    rewrite next_advance; cbn [snd].
    eapply advanced_trans; eauto. apply advance_advanced.
    eapply advanced_inv; eauto. }
  set (l3 := digits l2).
  assert (A3 : advanced l l3).
  { eapply advanced_trans; eauto. apply digits_fuel_advanced.
    eapply advanced_inv; eauto. }
  assert (I3 : inv l3) by (eapply advanced_inv; eauto).
  split; [|split].
  - apply sent_ok_emit; auto; try discriminate. now apply sent_ok_advanced.
  - now apply inv_emit.
  - reflexivity.
Qed.

Lemma expectKeyword_ok (l : Lexer) :
  inv l -> step_ok l (fst (expectKeyword l)) (snd (expectKeyword l)).
Proof.
  intros I. unfold expectKeyword.
  set (l1 := letters l).
  assert (A1 : advanced l l1) by now apply letters_fuel_advanced.
  assert (I1 : inv l1) by (eapply advanced_inv; eauto).
  destruct (keyword (strings.ToUpper (cache l1))) as [k|] eqn:K; cbn [fst snd].
  - apply keyword_kind in K.
    split; [|split].
    + apply sent_ok_emit; auto.
      * now apply sent_ok_advanced.
      * intros ->. cbn in K. lia.
      * intros ->. cbn in K. lia.
      * intros ->. cbn in K. lia.
    + now apply inv_emit.
    + reflexivity.
  - split; [|split].
    + apply sent_ok_errorf; auto. now apply sent_ok_advanced.
    + now apply inv_errorf.
    + exact Logic.I.
Qed.

Lemma width_low (l : Lexer) : peek l < 128 -> width l = 1.
Proof. intros H. now destruct (peek_low l H) as (c & rest & _ & _ & W). Qed.

(** More fuel does not change the result of [expectAny_fuel]. *)
Lemma expectAny_fuel_mono (fuel : nat) (l : Lexer) (r : Lexer * option State) :
  expectAny_fuel fuel l = Some r -> expectAny_fuel (S fuel) l = Some r.
Proof.
  revert l. induction fuel as [|fuel IH]; intros l; [discriminate|].
  intros H. cbn [expectAny_fuel] in H. cbn [expectAny_fuel].
  destruct (len (input l) <=? pos l); [exact H|].
  destruct (next l) as [c l1].
  repeat match type of H with
  | context [if ?b then _ else _] => destruct b; [exact H|]
  end.
  destruct (c =? rune ","); [now apply IH|].
  repeat match type of H with
  | context [if ?b then _ else _] => destruct b; try exact H
  end.
Qed.

(** [expectAny_fuel] returns when the fuel exceeds the number of bytes
    left. *)
Lemma expectAny_fuel_total (fuel : nat) (l : Lexer) :
  (remaining l < fuel)%nat -> exists r, expectAny_fuel fuel l = Some r.
Proof.
  revert l. induction fuel as [|fuel IH]; intros l H; [lia|].
  cbn [expectAny_fuel].
  destruct (len (input l) <=? pos l) eqn:E; [eauto|].
  rewrite next_advance.
  destruct (peek l =? rune "'"); [eauto|].
  destruct (peek l =? rune "`"); [eauto|].
  destruct ((peek l =? rune " ") || (peek l =? rune newline)); [eauto|].
  destruct (peek l =? rune "*"); [eauto|].
  destruct (peek l =? rune ",") eqn:C.
  - apply IH. apply Z.eqb_eq in C.
    assert (L : peek l < 128) by (rewrite C; cbn; lia).
    change (remaining (emit Sep (advance l))) with (remaining (advance l)).
    rewrite remaining_advance by assumption.
    unfold remaining in *. lia.
  - repeat match goal with
    | |- context [if ?b then _ else _] => destruct b; eauto
    end.
Qed.

Lemma expectAny_fuel_eq (l : Lexer) :
  expectAny_fuel (S (remaining l)) l = Some (expectAny l).
Proof.
  unfold expectAny.
  destruct (expectAny_fuel_total (S (remaining l)) l) as [r E]; [lia|].
  now rewrite E.
Qed.

Ltac runes :=
  repeat match goal with
  | H : context [rune ?c] |- _ =>
    let v := eval vm_compute in (rune c) in change (rune c) with v in H
  | |- context [rune ?c] =>
    let v := eval vm_compute in (rune c) in change (rune c) with v
  end.

Ltac inv_tac :=
  repeat first
    [ assumption | apply inv_emit | apply inv_ignore | apply inv_backup
    | apply inv_errorf | apply inv_advance ].

Ltac sent_tac :=
  lazymatch goal with
  | |- sent_ok ?l (advance ?l) _ => apply sent_ok_advance
  | |- sent_ok _ (emit _ _) _ =>
    apply sent_ok_emit;
    [ sent_tac | inv_tac | discriminate | intro; try discriminate; auto
    | intro; try discriminate; cbn; try lia ]
  | |- sent_ok _ (errorf _ _ _) _ =>
    apply sent_ok_errorf; [sent_tac | auto]
  | |- sent_ok _ (ignore ?x) _ =>
    apply (sent_ok_frame _ x); [sent_tac | reflexivity ..]
  | |- sent_ok _ (backup ?x) _ =>
    apply (sent_ok_frame _ x); [sent_tac | reflexivity ..]
  | |- sent_ok ?l ?l _ => apply sent_ok_refl
  end.

Ltac step_tac := split; [sent_tac | split; [inv_tac | try reflexivity; try exact Logic.I]].

Lemma expectAny_fuel_ok (fuel : nat) (l : Lexer) (r : Lexer * option State) :
  expectAny_fuel fuel l = Some r -> inv l -> start l = pos l ->
  step_ok l (fst r) (snd r).
Proof.
  revert l. induction fuel as [|fuel IH]; intros l H I SP; [discriminate|].
  cbn [expectAny_fuel] in H.
  destruct (len (input l) <=? pos l) eqn:E.
  { inversion H; subst r; cbn [fst snd]. step_tac. }
  rewrite next_advance in H.
  destruct (peek l =? rune "'").
  { inversion H; subst r; cbn [fst snd]. step_tac. }
  destruct (peek l =? rune "`").
  { inversion H; subst r; cbn [fst snd]. step_tac. }
  destruct ((peek l =? rune " ") || (peek l =? rune newline)).
  { inversion H; subst r; cbn [fst snd]. step_tac. }
  destruct (peek l =? rune "*").
  { inversion H; subst r; cbn [fst snd]. step_tac. }
  destruct (peek l =? rune ",").
  { apply IH in H; [|inv_tac|reflexivity].
    destruct H as (S1 & I1 & E1). split; [|split]; auto.
    eapply sent_ok_trans; [|exact S1]. sent_tac. }
  destruct ((peek l =? rune "=") || (peek l =? rune "+")
            || (peek l =? rune "-") || (peek l =? rune "/")) eqn:O.
  { inversion H; subst r; cbn [fst snd]. runes.
    assert (W : width l = 1) by (apply width_low; lia).
    step_tac. }
  destruct (peek l =? rune "!") eqn:O1.
  { runes. assert (W : width l = 1) by (apply width_low; lia).
    destruct (negb (peek (advance l) =? 61));
      inversion H; subst r; cbn [fst snd]; step_tac. }
  destruct (peek l =? rune ">") eqn:O2.
  { runes. assert (W : width l = 1) by (apply width_low; lia).
    destruct (negb (peek (advance l) =? 61) && negb (peek (advance l) =? 32));
      inversion H; subst r; cbn [fst snd]; step_tac. }
  destruct (peek l =? rune "<") eqn:O3.
  { runes. assert (W : width l = 1) by (apply width_low; lia).
    destruct (negb (peek (advance l) =? 61) && negb (peek (advance l) =? 32)
              && negb (peek (advance l) =? 62));
      inversion H; subst r; cbn [fst snd]; step_tac. }
  destruct (isDigit (peek l)).
  { inversion H; subst r; cbn [fst snd]. step_tac. }
  destruct (isLetter (peek l)).
  { inversion H; subst r; cbn [fst snd]. step_tac. }
  inversion H; subst r; cbn [fst snd]. step_tac.
Qed.

Lemma expectAny_ok (l : Lexer) :
  inv l -> start l = pos l -> step_ok l (fst (expectAny l)) (snd (expectAny l)).
Proof.
  intros I SP. eapply expectAny_fuel_ok; eauto. apply expectAny_fuel_eq.
Qed.

(** Every call of a state keeps the offsets in range, enters the next
    state with the pending text it expects, and sends tokens that are
    diagnostics or slices of the input. *)
Lemma call_ok (s : State) (l : Lexer) :
  inv l -> at_entry (Some s) l ->
  step_ok l (fst (call s l)) (snd (call s l)).
Proof.
  intros I E. destruct s; cbn [call].
  - now apply expectAny_ok.
  - now apply expectKeyword_ok.
  - now apply expectString_ok.
  - now apply expectLiteral_ok.
  - now apply expectNumber_ok.
Qed.

(** ** The driver *)

Lemma loop_None (n : nat) (l : Lexer) : loop n None l = (closing l, None).
Proof. now destruct n. Qed.

Lemma closing_closing (l : Lexer) : closing (closing l) = closing l.
Proof. reflexivity. Qed.

(** Running [n] iterations and then [m] more is running [n + m]. *)
Lemma loop_add (n m : nat) (st : option State) (l : Lexer) :
  loop (n + m) st l = loop m (snd (loop n st l)) (fst (loop n st l)).
Proof.
  assert (N : forall k l', loop m (snd (loop k None l')) (fst (loop k None l'))
                           = loop (k + m) None l').
  { intros k l'. rewrite (loop_None k), (loop_None (k + m)). cbn [fst snd].
    now rewrite loop_None, closing_closing. }
  revert st l. induction n as [|n IH]; intros [s|] l.
  - reflexivity.
  - now rewrite N.
  - cbn [Nat.add loop]. destruct (call s l) as [l' st']. apply IH.
  - now rewrite N.
Qed.

Lemma loop_closed (n : nat) (st : option State) (l : Lexer) :
  snd (loop n st l) = None ->
  closing (fst (loop n st l)) = fst (loop n st l).
Proof.
  revert st l. induction n as [|n IH]; intros [s|] l; try rewrite loop_None;
    cbn [fst snd]; try reflexivity.
  - discriminate.
  - cbn [loop]. destruct (call s l) as [l' st']. apply IH.
Qed.

(** Once the driver has returned, more iterations change nothing. *)
Lemma loop_stable (n m : nat) (st : option State) (l : Lexer) :
  snd (loop n st l) = None -> (n <= m)%nat -> loop m st l = loop n st l.
Proof.
  intros H L. replace m with (n + (m - n))%nat by lia.
  rewrite loop_add, H, loop_None, loop_closed by assumption.
  destruct (loop n st l) as [l' st']. cbn in *. now subst.
Qed.

Lemma emitted_running (nm inp : string) (s : State) (st' : option State)
      (tk : Token) :
  emitted nm inp (Some s) tk -> emitted nm inp st' tk.
Proof.
  intros [E|(HN & a & b & H1 & H2 & H3 & H4 & H5 & H6)]; [now left|right].
  split; [exact HN|].
  exists a, b. repeat split; auto. intros T. now apply H5 in T.
Qed.

Lemma reached_call (nm inp : string) (s : State) (l : Lexer) :
  reached nm inp l (Some s) ->
  reached nm inp (fst (call s l)) (snd (call s l)).
Proof.
  intros (N & I & V & E & F).
  destruct (call_ok s l V E) as ((N' & I' & C' & new & O & F') & V' & E').
  split; [congruence|]. split; [congruence|].
  split; [assumption|]. split; [assumption|].
  rewrite O. apply Forall_app. split.
  - eapply Forall_impl; [|exact F]. intros tk. apply emitted_running.
  - now rewrite <- I, <- N.
Qed.

Lemma reached_loop (nm inp : string) (n : nat) (st : option State)
      (l : Lexer) :
  reached nm inp l st ->
  reached nm inp (fst (loop n st l)) (snd (loop n st l)).
Proof.
  revert st l. induction n as [|n IH]; intros [s|] l H;
    try rewrite loop_None; cbn [fst snd]; auto.
  cbn [loop]. pose proof (reached_call nm inp s l H) as R.
  destruct (call s l) as [l' st']. now apply IH.
Qed.

Lemma reached_NewLexer (nm inp : string) :
  reached nm inp (NewLexer nm inp) (Some ExpectAny).
Proof.
  repeat split; cbn; try lia.
  - apply len_nonneg.
  - constructor.
Qed.

Lemma reached_session (nm inp : string) (n : nat) :
  reached nm inp (fst (session nm inp n)) (snd (session nm inp n)).
Proof. apply reached_loop, reached_NewLexer. Qed.

Lemma closed_call (s : State) (l : Lexer) :
  inv l -> at_entry (Some s) l ->
  closed (tokens (fst (call s l))) = closed (tokens l).
Proof.
  intros V E. now destruct (call_ok s l V E) as ((_ & _ & C & _) & _).
Qed.

(** The channel is closed exactly when the driver has returned. *)
Lemma closed_loop (nm inp : string) (n : nat) (st : option State)
      (l : Lexer) :
  reached nm inp l st -> closed (tokens l) = false ->
  closed (tokens (fst (loop n st l))) =
  match snd (loop n st l) with None => true | Some _ => false end.
Proof.
  revert st l. induction n as [|n IH]; intros [s|] l H C;
    try rewrite loop_None; cbn [fst snd]; auto.
  cbn [loop]. pose proof (reached_call nm inp s l H) as R.
  destruct H as (_ & _ & V & E & _).
  pose proof (closed_call s l V E) as C'.
  destruct (call s l) as [l' st']. apply IH; auto. cbn in C'. congruence.
Qed.

Lemma closed_session (nm inp : string) (n : nat) :
  closed (tokens (fst (session nm inp n))) =
  match snd (session nm inp n) with None => true | Some _ => false end.
Proof.
  eapply closed_loop; [apply reached_NewLexer | reflexivity].
Qed.

(** The tokens sent are never taken back. *)
Lemma output_loop (nm inp : string) (n : nat) (st : option State)
      (l : Lexer) :
  reached nm inp l st ->
  exists new, output (fst (loop n st l)) = (output l ++ new)%list.
Proof.
  revert st l. induction n as [|n IH]; intros [s|] l H;
    try rewrite loop_None; cbn [fst loop];
    try (exists []; now rewrite app_nil_r).
  pose proof (reached_call nm inp s l H) as R.
  destruct H as (_ & _ & V & E & _).
  destruct (call_ok s l V E) as ((_ & _ & _ & new & O & _) & _).
  destruct (call s l) as [l' st']. cbn [fst snd] in *.
  destruct (IH st' l' R) as [new' O'].
  exists (new ++ new')%list. now rewrite O', O, app_assoc.
Qed.

(** A call to [Tokenize] that has returned keeps its result, however far
    the driver goes on. *)
Lemma Tokenize_stable (nm inp : string) (n m k : nat)
      (r : Token * option string) :
  (n <= m)%nat ->
  Tokenize (fst (session nm inp n)) k = Some r ->
  Tokenize (fst (session nm inp m)) k = Some r.
Proof.
  intros L H. unfold session, transform in *.
  replace m with (n + (m - n))%nat by lia. rewrite loop_add.
  pose proof (reached_loop nm inp n (Some ExpectAny) (NewLexer nm inp)
                (reached_NewLexer nm inp)) as R.
  pose proof (closed_session nm inp n) as C.
  unfold session, transform in C.
  destruct (loop n (Some ExpectAny) (NewLexer nm inp)) as [l st].
  cbn [fst snd] in *.
  destruct st as [s|].
  - destruct (output_loop nm inp (m - n) (Some s) l R) as [new O].
    unfold Tokenize, recv in *. unfold output in O. rewrite O.
    destruct (nth_error (sent (tokens l)) k) as [tk|] eqn:E.
    + rewrite nth_error_app1 by (apply nth_error_Some; congruence).
      now rewrite E.
    + rewrite C in H. discriminate.
  - rewrite loop_None. cbn [fst]. unfold Tokenize, recv in *.
    cbn [closing set_tokens tokens close sent closed].
    destruct (nth_error (sent (tokens l)) k); [exact H|].
    now rewrite C in H.
Qed.

(** ** Auxiliary lemmas on the scanner *)

Lemma inv_primitive (p : Primitive) (l : Lexer) :
  inv l -> inv (primitive p l).
Proof.
  intros V. destruct p; cbn [primitive]; try rewrite next_advance;
    cbn [snd]; inv_tac.
Qed.

Lemma inv_observe (ps : list Primitive) (l : Lexer) :
  inv l -> inv (observe ps l).
Proof.
  revert l. induction ps as [|p ps IH]; intros l V; cbn; auto.
  apply IH. now apply inv_primitive.
Qed.

Lemma inv_NewLexer (nm inp : string) : inv (NewLexer nm inp).
Proof. unfold inv; cbn. pose proof (len_nonneg inp). lia. Qed.

Lemma composed_refl (l : Lexer) : composed l l.
Proof. now exists []. Qed.

Lemma composed_trans (l1 l2 l3 : Lexer) :
  composed l1 l2 -> composed l2 l3 -> composed l1 l3.
Proof.
  intros [ps ->] [qs ->]. exists (ps ++ qs)%list.
  unfold observe. now rewrite fold_left_app.
Qed.

Lemma composed_primitive (p : Primitive) (l l' : Lexer) :
  composed l l' -> composed l (primitive p l').
Proof.
  intros H. eapply composed_trans; [exact H|]. now exists [p].
Qed.

Lemma advance_next (l : Lexer) : advance l = primitive Next l.
Proof. cbn. now rewrite next_advance. Qed.

Ltac composed_tac :=
  lazymatch goal with
  | |- composed ?l ?l => apply composed_refl
  | |- composed _ (advance ?x) =>
    rewrite (advance_next x);
    apply (composed_primitive Next _ x); composed_tac
  | |- composed _ (emit ?k ?x) =>
    apply (composed_primitive (Emit k) _ x); composed_tac
  | |- composed _ (errorf ?f ?a ?x) =>
    apply (composed_primitive (Errorf f a) _ x); composed_tac
  | |- composed _ (ignore ?x) =>
    apply (composed_primitive Ignore _ x); composed_tac
  | |- composed _ (backup ?x) =>
    apply (composed_primitive Backup _ x); composed_tac
  | |- composed _ (closing ?x) =>
    apply (composed_primitive Close _ x); composed_tac
  | |- composed _ (if ?b then _ else _) => destruct b; composed_tac
  | |- _ => eassumption
  end.

Lemma composed_letters (fuel : nat) (l : Lexer) :
  composed l (letters_fuel fuel l).
Proof.
  revert l. induction fuel as [|fuel IH]; intros l; cbn [letters_fuel].
  - apply composed_refl.
  - destruct (isLetter (peek l)); [|apply composed_refl].
    eapply composed_trans; [|apply IH]. now exists [Next].
Qed.

Lemma composed_digits (fuel : nat) (l : Lexer) :
  composed l (digits_fuel fuel l).
Proof.
  revert l. induction fuel as [|fuel IH]; intros l; cbn [digits_fuel].
  - apply composed_refl.
  - destruct (isDigit (peek l)); [|apply composed_refl].
    eapply composed_trans; [|apply IH]. now exists [Next].
Qed.

Lemma composed_expectAny (fuel : nat) (l : Lexer)
      (r : Lexer * option State) :
  expectAny_fuel fuel l = Some r -> composed l (fst r).
Proof.
  revert l. induction fuel as [|fuel IH]; intros l H; [discriminate|].
  cbn [expectAny_fuel] in H.
  destruct (len (input l) <=? pos l).
  { injection H as <-. cbn [fst]. composed_tac. }
  rewrite next_advance in H.
  repeat match type of H with
  | (if ?b then Some _ else _) = _ =>
    destruct b; [injection H as <-; cbn [fst]; composed_tac|]
  end.
  destruct (peek l =? rune ",").
  { apply IH in H. eapply composed_trans; [|exact H]. composed_tac. }
  repeat match type of H with
  | (if ?b then Some _ else _) = _ =>
    destruct b; [injection H as <-; cbn [fst]; composed_tac|]
  end.
  injection H as <-. cbn [fst]. composed_tac.
Qed.

Lemma composed_call (s : State) (l : Lexer) : composed l (fst (call s l)).
Proof.
  destruct s; cbn [call].
  - eapply composed_expectAny. apply expectAny_fuel_eq.
  - unfold expectKeyword.
    pose proof (composed_letters (remaining l) l) as H.
    fold (letters l) in H.
    destruct (keyword _); cbn [fst]; composed_tac.
  - unfold expectString. rewrite next_advance.
    destruct (peek l =? _); cbn [fst]; composed_tac.
  - rewrite expectLiteral_emit.
    destruct (peek l =? _); cbn [fst]; composed_tac.
  - unfold expectNumber. cbn [fst].
    apply (composed_primitive (Emit Number)).
    eapply composed_trans; [apply (composed_digits (remaining l) l)|].
    fold (digits l).
    eapply composed_trans; [|apply composed_digits].
    destruct (peek (digits l) =? _); [|apply composed_refl].
    now exists [Next].
Qed.

Lemma composed_loop (n : nat) (st : option State) (l : Lexer) :
  composed l (fst (loop n st l)).
Proof.
  revert st l. induction n as [|n IH]; intros [s|] l;
    try rewrite loop_None; cbn [fst loop]; try composed_tac.
  pose proof (composed_call s l) as H.
  destruct (call s l) as [l' st']. cbn [fst] in H.
  eapply composed_trans; [exact H|apply IH].
Qed.

Lemma expectAny_unfold (l : Lexer) :
  pos l < len (input l) -> peek l <> rune "," ->
  Some (expectAny l) = expectAny_fuel 1 l.
Proof.
  intros L C. rewrite <- expectAny_fuel_eq.
  cbn [expectAny_fuel].
  destruct (len (input l) <=? pos l); [reflexivity|].
  rewrite next_advance.
  apply Z.eqb_neq in C. rewrite C.
  reflexivity.
Qed.

(** The three operator branches consume the operator only. *)
Lemma operator_branch (l : Lexer) :
  pos l < len (input l) ->
  peek l = rune "!" \/ peek l = rune ">" \/ peek l = rune "<" ->
  exists l', expectAny l = (emit Op l', Some ExpectAny) /\
             pos l' = pos l + 1 /\ start l' = start l.
Proof.
  intros L P.
  assert (C : peek l <> rune ",").
  { destruct P as [E|[E|E]]; rewrite E; discriminate. }
  assert (W : width l = 1).
  { apply width_low. destruct P as [E|[E|E]]; rewrite E; cbn; lia. }
  pose proof (expectAny_unfold l L C) as E.
  cbn [expectAny_fuel] in E.
  assert (L' : (len (input l) <=? pos l) = false) by lia.
  rewrite L', next_advance in E.
  destruct P as [P|[P|P]]; rewrite P in E; cbn [Z.eqb rune byte orb] in E;
    injection E as E; rewrite E;
    match goal with
    | |- context [if ?b then _ else _] => destruct b
    end;
    eexists; (split; [reflexivity|]); cbn; rewrite W; auto.
Qed.

Lemma IndexByte_lower (s : string) (r : Z) : -1 <= strings.IndexByte s r.
Proof.
  induction s as [|c s IH]; cbn; [lia|].
  destruct (byte c =? r); [lia|].
  destruct (strings.IndexByte s r <? 0) eqn:E; lia.
Qed.

Lemma IndexByte_head (c : ascii) (s : string) (r : Z) :
  strings.IndexByte (String.String c s) r < 0 ->
  byte c <> r /\ strings.IndexByte s r < 0.
Proof.
  cbn. pose proof (IndexByte_lower s r).
  destruct (byte c =? r) eqn:E; [lia|].
  destruct (strings.IndexByte s r <? 0) eqn:E'; lia.
Qed.

Lemma IndexByte_drop (n : nat) (s : string) (r : Z) :
  strings.IndexByte s r < 0 -> strings.IndexByte (drop n s) r < 0.
Proof.
  revert s. induction n as [|n IH]; intros [|c s] H; cbn [drop]; auto.
  apply IH. now apply IndexByte_head in H.
Qed.



Lemma dispatch_delimiter (d : ascii) (st : State) (l : Lexer) :
  quoted d st -> peek l = rune d ->
  expectAny l = (advance l, Some st) /\ pos (advance l) = pos l + 1.
Proof.
  intros Q P.
  assert (R : rune d < 128) by (destruct Q as [[-> _]|[-> _]]; cbn; lia).
  assert (L : pos l < len (input l)).
  { destruct (Z_lt_ge_dec (pos l) (len (input l))) as [L|G]; [exact L|].
    destruct (peek_end l) as [E _]; [lia|].
    rewrite E in P. unfold utf8.RuneError in P. lia. }
  assert (C : peek l <> rune ",").
  { rewrite P. destruct Q as [[-> _]|[-> _]]; discriminate. }
  assert (W : width l = 1) by (apply width_low; lia).
  pose proof (expectAny_unfold l L C) as E.
  cbn [expectAny_fuel] in E.
  assert (L' : (len (input l) <=? pos l) = false) by lia.
  rewrite L', next_advance, P in E.
  split; [|cbn; lia].
  destruct Q as [[-> ->]|[-> ->]]; cbn [Z.eqb rune byte] in E;
    now injection E.
Qed.

Lemma append_nil_r (s : string) : s ++ "" = s.
Proof. induction s as [|c s IH]; cbn; congruence. Qed.

Lemma append_assoc (a b c : string) : (a ++ b) ++ c = a ++ (b ++ c).
Proof. induction a as [|x a IH]; cbn; congruence. Qed.

Lemma plain_app (a b : string) : plain (a ++ b) = plain a && plain b.
Proof.
  induction a as [|x a IH]; cbn; [reflexivity|].
  now rewrite IH, andb_assoc.
Qed.

Lemma Sprintf_char (c : ascii) (rest : string) (a : list string) :
  (c =? "%")%char = false ->
  fmt.Sprintf (String.String c rest) a = String.String c (fmt.Sprintf rest a).
Proof.
  destruct c as [[] [] [] [] [] [] [] []]; intros H;
    first [discriminate H | reflexivity].
Qed.

(** Text without percent sign is copied by [Sprintf]. *)
Lemma Sprintf_plain (pre rest : string) (a : list string) :
  plain pre = true -> fmt.Sprintf (pre ++ rest) a = pre ++ fmt.Sprintf rest a.
Proof.
  induction pre as [|c pre IH]; cbn [plain append]; intros H; [reflexivity|].
  apply andb_prop in H. destruct H as [H1 H2].
  apply negb_true_iff in H1.
  rewrite Sprintf_char by assumption. now rewrite IH.
Qed.

Lemma diagnostic_keyword (nm args : string) :
  plain nm = true ->
  diagnostic nm "keyword doesn't exsit: %s" args =
  "ERROR: " ++ nm ++ ": keyword doesn't exsit: " ++ args.
Proof.
  intros H. unfold diagnostic.
  change (fmt.Sprintf "ERROR: %s: %s" [nm; "keyword doesn't exsit: %s"])
    with ("ERROR: " ++ nm ++ ": keyword doesn't exsit: " ++ "%s").
  rewrite <- !append_assoc. rewrite Sprintf_plain.
  - cbn [fmt.Sprintf]. now rewrite append_nil_r, !append_assoc.
  - rewrite !plain_app, H. reflexivity.
Qed.

Lemma diagnostic_op (nm args : string) :
  plain nm = true ->
  diagnostic nm "unsupported op: " args =
  "ERROR: " ++ nm ++ ": unsupported op: %!(EXTRA string=" ++ args ++ ")".
Proof.
  intros H. unfold diagnostic.
  change (fmt.Sprintf "ERROR: %s: %s" [nm; "unsupported op: "])
    with ("ERROR: " ++ nm ++ ": unsupported op: " ++ "").
  rewrite <- !append_assoc. rewrite Sprintf_plain.
  - cbn [fmt.Sprintf fmt.extra]. now rewrite !append_assoc.
  - rewrite !plain_app, H. reflexivity.
Qed.

Lemma slice_empty (s : string) (p : Z) : slice s p p = "".
Proof.
  unfold slice. rewrite Z.sub_diag. now destruct (from s p).
Qed.

Lemma slice_head (s : string) (p q : Z) (c : ascii) (rest : string) :
  0 <= p -> p + 1 <= q -> from s p = String.String c rest ->
  slice s p q = String.String c (slice s (p + 1) q).
Proof.
  intros P Q F. unfold slice. rewrite F.
  replace (Z.to_nat (q - p)) with (S (Z.to_nat (q - (p + 1)))) by lia.
  cbn [take]. f_equal. f_equal.
  rewrite <- (from_from s p 1) by lia. now rewrite F.
Qed.

(** The bytes consumed by the loop of [expectKeyword] are letters. *)
Lemma letters_fuel_slice (fuel : nat) (l : Lexer) :
  inv l ->
  letters_only (slice (input l) (pos l) (pos (letters_fuel fuel l))) = true.
Proof.
  revert l. induction fuel as [|fuel IH]; intros l V; cbn [letters_fuel].
  - now rewrite slice_empty.
  - destruct (isLetter (peek l)) eqn:L; [|now rewrite slice_empty].
    rewrite next_advance. cbn [snd].
    destruct (peek_low l (isLetter_low _ L)) as (c & rest & F & B & W).
    pose proof (inv_advance l V) as V1.
    pose proof (letters_fuel_advanced fuel (advance l) V1)
      as (_ & _ & _ & _ & A & _).
    specialize (IH (advance l) V1).
    cbn [pos advance set_pos input] in IH, A. rewrite W in IH, A.
    destruct V as (V0 & V2 & V3).
    rewrite (slice_head _ _ _ c rest); auto; [|lia].
    cbn [letters_only]. now rewrite B, L, IH.
Qed.

Lemma dispatch_letter (l : Lexer) :
  start l = pos l -> isLetter (peek l) = true ->
  expectAny l = (l, Some ExpectKeyword).
Proof.
  intros SP L.
  assert (P : peek l < 128) by now apply isLetter_low.
  assert (B : pos l < len (input l)).
  { destruct (Z_lt_ge_dec (pos l) (len (input l))) as [B|G]; [exact B|].
    destruct (peek_end l) as [E _]; [lia|].
    rewrite E in P. unfold utf8.RuneError in P. lia. }
  assert (R : backup (advance l) = l).
  { destruct l as [nm inp s p c]. cbn in *. now subst. }
  unfold isLetter in L. runes.
  assert (C : peek l <> rune ",") by (runes; lia).
  pose proof (expectAny_unfold l B C) as E.
  cbn [expectAny_fuel] in E.
  assert (L' : (len (input l) <=? pos l) = false) by lia.
  rewrite L', next_advance, R in E. unfold isDigit, isLetter in E. runes.
  repeat match type of E with
  | context [peek l =? ?v] =>
    replace (peek l =? v) with false in E by lia
  end.
  cbn [orb] in E.
  replace ((48 <=? peek l) && (peek l <=? 57)) with false in E by lia.
  replace ((97 <=? peek l) && (peek l <=? 122)
           || (65 <=? peek l) && (peek l <=? 90)) with true in E by lia.
  now injection E.
Qed.

Lemma drop_app (n : nat) (a b : string) :
  (n <= String.length a)%nat -> drop n (a ++ b) = drop n a ++ b.
Proof.
  revert a. induction n as [|n IH]; intros [|c a] H; cbn in *;
    try reflexivity; try lia.
  apply IH. lia.
Qed.

Lemma take_all (s : string) : take (String.length s) s = s.
Proof. induction s as [|c s IH]; cbn; congruence. Qed.

Lemma slice_all (s : string) : slice s 0 (len s) = s.
Proof.
  unfold slice, from, len. cbn [Z.to_nat drop].
  rewrite Z.sub_0_r, Nat2Z.id. apply take_all.
Qed.

Lemma len_app (a b : string) : len (a ++ b) = len a + len b.
Proof.
  unfold len. induction a as [|c a IH]; cbn [append String.length]; lia.
Qed.

(** The state of a quoted literal reads up to the closing delimiter and
    sends the pending text with it. *)
Lemma quoted_scan (d : ascii) (st : State) (k : nat) :
  quoted d st ->
  forall (l : Lexer) (body rest : string),
    (String.length body <= k)%nat -> 0 <= pos l ->
    from (input l) (pos l) = body ++ String.String d rest ->
    strings.IndexByte body (rune d) < 0 ->
    exists n : nat,
      loop n (Some st) l =
      (emit (quoted_kind st) (set_pos l (pos l + len body + 1)),
       Some ExpectAny).
Proof.
  intros Q.
  assert (R : byte d < 128) by (destruct Q as [[-> _]|[-> _]]; cbn; lia).
  induction k as [|k IH]; intros l body rest K P F A.
  - destruct body as [|c body]; [|cbn in K; lia].
    cbn [append] in F. exists 1%nat.
    assert (E : peek l = rune d /\ width l = 1).
    { unfold peek, width. now rewrite F, decode_ascii. }
    destruct E as [E W]. apply Z.eqb_eq in E.
    assert (V : advance l = set_pos l (pos l + len "" + 1)).
    { unfold advance. rewrite W. cbn. f_equal. lia. }
    rewrite <- V. cbn [loop].
    destruct Q as [[-> ->]|[-> ->]]; cbn [call quoted_kind].
    + unfold expectString. now rewrite next_advance, E.
    + now rewrite expectLiteral_emit, E.
  - destruct body as [|c body]; [apply (IH l "" rest); auto; cbn; lia|].
    assert (N : peek l <> rune d).
    { intros E. assert (L : peek l < 128) by (rewrite E; exact R).
      destruct (peek_low l L) as (c' & rest' & F' & B & _).
      rewrite F in F'. cbn [append] in F'. injection F' as -> _.
      apply IndexByte_head in A. unfold rune in *. lia. }
    apply Z.eqb_neq in N.
    assert (C : call st l = (advance l, Some st)).
    { destruct Q as [[-> ->]|[-> ->]]; cbn [call].
      - unfold expectString. now rewrite next_advance, N.
      - now rewrite expectLiteral_emit, N. }
    set (b := String.String c body) in *.
    assert (W1 : 1 <= width l).
    { unfold width. rewrite F.
      apply (proj2 (decode_width (b ++ String.String d rest))).
      discriminate. }
    assert (W2 : width l <= len b).
    { unfold width. rewrite F. apply decode_before_ascii; [discriminate|].
      exact R. }
    assert (F1 : from (input (advance l)) (pos (advance l)) =
                 drop (Z.to_nat (width l)) b ++ String.String d rest).
    { cbn [advance set_pos input pos].
      rewrite <- from_from by lia. rewrite F. unfold from.
      apply drop_app. unfold len in W2. lia. }
    assert (L1 : len (drop (Z.to_nat (width l)) b) = len b - width l).
    { unfold len in *. rewrite length_drop. lia. }
    destruct (IH (advance l) (drop (Z.to_nat (width l)) b) rest)
      as [n Hn]; auto.
    + unfold len in L1, W2. cbn [String.length] in *.
      assert (String.length (drop (Z.to_nat (width l)) b)
              = (String.length b - Z.to_nat (width l))%nat)
        by apply length_drop.
      subst b. cbn [String.length] in *. lia.
    + cbn. lia.
    + now apply IndexByte_drop.
    + exists (S n). cbn [loop]. rewrite C, Hn. f_equal. f_equal.
      rewrite L1. unfold set_pos.
      cbn [advance set_pos pos name input start tokens]. f_equal. lia.
Qed.

(** A quoted literal whose body does not contain the delimiter is sent
    whole, delimiters included, and the scanner is back in dispatch. *)
Lemma quoted_session (d : ascii) (st : State) (nm body : string) :
  quoted d st -> strings.IndexByte body (rune d) < 0 ->
  let inp := String.String d (body ++ String.String d "") in
  exists n : nat,
    snd (session nm inp n) = Some ExpectAny /\
    output (fst (session nm inp n)) = [mkToken (quoted_kind st) inp].
Proof.
  intros Q A inp.
  assert (I : inp = String.String d (body ++ String.String d ""))
    by reflexivity.
  clearbody inp.
  assert (R : byte d < 128) by (destruct Q as [[-> _]|[-> _]]; cbn; lia).
  assert (P : peek (NewLexer nm inp) = rune d).
  { unfold peek. cbn [input pos NewLexer from Z.to_nat drop].
    rewrite I. now rewrite decode_ascii. }
  destruct (dispatch_delimiter d st (NewLexer nm inp) Q P) as [E W].
  assert (L : len inp = 0 + 1 + len body + 1).
  { rewrite I. unfold len. cbn [String.length].
    assert (String.length (body ++ String.String d "")
            = S (String.length body)).
    { clear. induction body as [|c body IH]; cbn; congruence. }
    lia. }
  destruct (quoted_scan d st (String.length body) Q
              (advance (NewLexer nm inp)) body "") as [n Hn]; auto.
  - rewrite W. cbn. lia.
  - rewrite W. cbn [input advance set_pos NewLexer pos]. now rewrite I.
  - exists (S n). unfold session, transform. cbn [loop call].
    rewrite E, Hn. cbn [fst snd]. split; [reflexivity|].
    cbn [output emit set_tokens set_start tokens send sent NewLexer make
         advance set_pos pos start input app cache].
    cbn [advance set_pos pos NewLexer] in W. rewrite W, <- L.
    unfold cache. cbn [input start pos set_pos advance NewLexer].
    now rewrite slice_all.
Qed.

(** ** The scanner *)

(** C1.  On the query of the README the driver returns after 27
    iterations, having sent Select "select", Star "*", From "from",
    Literal "`table`", Where "where", Literal "`a`", Op "=" and an Error
    token, in this order and nothing else; the first eight calls to
    Tokenize return these tokens, the first seven with a nil error and the
    last with the error "Error". *)
Theorem query_tokens (nm : string) (n : nat) :
  (27 <= n)%nat ->
  exists msg,
    snd (session nm query n) = None /\
    closed (tokens (fst (session nm query n))) = true /\
    output (fst (session nm query n)) =
      [ mkToken Select "select"; mkToken Star "*"; mkToken From "from";
        mkToken Literal "`table`"; mkToken Where "where";
        mkToken Literal "`a`"; mkToken Op "="; mkToken Error msg ] /\
    map (Tokenize (fst (session nm query n))) (seq 0 8) =
      [ Some (mkToken Select "select", None);
        Some (mkToken Star "*", None);
        Some (mkToken From "from", None);
        Some (mkToken Literal "`table`", None);
        Some (mkToken Where "where", None);
        Some (mkToken Literal "`a`", None);
        Some (mkToken Op "=", None);
        Some (mkToken Error msg, Some "Error") ].
Proof.
  intros H.
  exists (fmt.Sprintf
            (fmt.Sprintf "ERROR: %s: %s" [nm; "keyword doesn't exsit: %s"])
            ["xyz"]).
  assert (E : session nm query n = session nm query 27).
  { apply loop_stable; [|exact H]. vm_compute. reflexivity. }
  rewrite E. repeat split; vm_compute; reflexivity.
Qed.

Lemma query_tokens_witness :
  exists msg,
    snd (session "lex" query 27) = None /\
    closed (tokens (fst (session "lex" query 27))) = true /\
    output (fst (session "lex" query 27)) =
      [ mkToken Select "select"; mkToken Star "*"; mkToken From "from";
        mkToken Literal "`table`"; mkToken Where "where";
        mkToken Literal "`a`"; mkToken Op "="; mkToken Error msg ] /\
    map (Tokenize (fst (session "lex" query 27))) (seq 0 8) =
      [ Some (mkToken Select "select", None);
        Some (mkToken Star "*", None);
        Some (mkToken From "from", None);
        Some (mkToken Literal "`table`", None);
        Some (mkToken Where "where", None);
        Some (mkToken Literal "`a`", None);
        Some (mkToken Op "=", None);
        Some (mkToken Error msg, Some "Error") ].
Proof. apply (query_tokens "lex" 27). lia. Defined.

(** C2.  After any sequence of primitives applied to a new lexer the
    offsets satisfy 0 <= start <= pos <= len(input), and emit, called at
    that point, sends exactly input[start:pos] as the literal of its
    token.  Every configuration of a session is reached by such a
    sequence; there too the offsets are in range, and every token sent
    that is not a diagnostic has a slice of the input as literal. *)
Theorem cursor_invariant (nm inp : string) :
  (forall ps : list Primitive,
     let l := observe ps (NewLexer nm inp) in
     (0 <= start l /\ start l <= pos l /\ pos l <= len (input l)) /\
     forall k : TokenType,
       output (emit k l) =
       (output l ++ [mkToken k (slice (input l) (start l) (pos l))])%list) /\
  (forall n : nat,
     let l := fst (session nm inp n) in
     (exists ps : list Primitive, l = observe ps (NewLexer nm inp)) /\
     (0 <= start l /\ start l <= pos l /\ pos l <= len (input l)) /\
     Forall (fun tk =>
               Type_ tk = Error \/
               exists a b, 0 <= a /\ a <= b /\ b <= len inp /\
                           Literal_ tk = slice inp a b)
            (output l)).
Proof.
  split.
  - intros ps l. split; [|reflexivity].
    apply inv_observe, inv_NewLexer.
  - intros n l.
    destruct (reached_session nm inp n) as (_ & _ & V & _ & F).
    split; [apply composed_loop|]. split; [exact V|].
    eapply Forall_impl; [|exact F].
    intros tk [[E _]|(_ & a & b & H1 & H2 & H3 & H4 & _)]; [now left|right].
    now exists a, b.
Qed.

(** C3.  When dispatch reads a letter and the maximal run of letters that
    starts there is not, in upper case, one of the eighteen keywords, the
    keyword state sends one Error token and returns the nil state: the
    driver leaves its loop and closes the channel, and nothing is sent
    after the Error token.  The literal of this token (for a name without
    percent sign) is "ERROR: <name>: keyword doesn't exsit: <word>", with
    the misspelt "exsit" of the source, not "exist". *)
Theorem unknown_word_fatal (l : Lexer) (n : nat) :
  inv l -> start l = pos l -> plain (name l) = true ->
  isLetter (peek l) = true ->
  keyword (strings.ToUpper
             (slice (input l) (pos l) (pos (letters l)))) = None ->
  (2 <= n)%nat ->
  letters_only (slice (input l) (pos l) (pos (letters l))) = true /\
  isLetter (peek (letters l)) = false /\
  snd (transform n l) = None /\
  output (fst (transform n l)) =
    (output l ++
     [mkToken Error
        ("ERROR: " ++ name l ++ ": keyword doesn't exsit: "
         ++ slice (input l) (pos l) (pos (letters l)))])%list /\
  closed (tokens (fst (transform n l))) = true.
Proof.
  intros V SP P L K N.
  split; [now apply letters_fuel_slice|]. split; [apply letters_exit|].
  pose proof (letters_fuel_advanced (remaining l) l V)
    as (A1 & A2 & A3 & A4 & _).
  fold (letters l) in A1, A2, A3, A4.
  assert (C : cache (letters l) = slice (input l) (pos l) (pos (letters l))).
  { unfold cache. now rewrite A2, A3, SP. }
  assert (E : expectKeyword l =
              (errorf "keyword doesn't exsit: %s"
                      (slice (input l) (pos l) (pos (letters l)))
                      (letters l), None)).
  { unfold expectKeyword. now rewrite C, K. }
  unfold transform. replace n with (2 + (n - 2))%nat by lia.
  rewrite loop_add. cbn [loop call].
  rewrite (dispatch_letter l SP L). cbn [loop call]. rewrite E.
  cbn [fst snd]. rewrite loop_None.
  cbn [fst snd closing errorf set_tokens tokens close send sent closed
       output].
  fold (diagnostic (name (letters l)) "keyword doesn't exsit: %s"
          (slice (input l) (pos l) (pos (letters l)))).
  rewrite A1, A4, diagnostic_keyword by assumption. auto.
Qed.

Lemma unknown_word_fatal_witness :
  inv (NewLexer "lex" "xyz =") /\
  plain "lex" = true /\
  isLetter (peek (NewLexer "lex" "xyz =")) = true /\
  keyword (strings.ToUpper "xyz") = None /\
  snd (transform 5 (NewLexer "lex" "xyz =")) = None /\
  output (fst (transform 5 (NewLexer "lex" "xyz ="))) =
    [mkToken Error "ERROR: lex: keyword doesn't exsit: xyz"].
Proof.
  assert (V : inv (NewLexer "lex" "xyz =")) by (unfold inv; cbn; lia).
  assert (P : plain "lex" = true) by reflexivity.
  assert (L : isLetter (peek (NewLexer "lex" "xyz =")) = true)
    by reflexivity.
  assert (K : keyword (strings.ToUpper "xyz") = None) by reflexivity.
  split; [exact V|]. split; [exact P|]. split; [exact L|]. split; [exact K|].
  assert (N : (2 <= 5)%nat) by lia.
  destruct (unknown_word_fatal (NewLexer "lex" "xyz =") 5 V eq_refl P L K N)
    as (_ & _ & A & B & _).
  split; [exact A|exact B].
Defined.

(** C4.  In a session whose name has no percent sign, the literal of an
    Error token is "ERROR: <name>: keyword doesn't exsit: <text>" when it
    comes from the keyword state; when it comes from an operator branch
    it is "ERROR: <name>: unsupported op: %!(EXTRA string=<text>)", not
    "ERROR: <name>: unsupported op: <text>": the format of that call has
    no verb for the offending text, which Sprintf reports as an extra
    operand. *)
Theorem error_literal (nm inp : string) (n : nat) (tk : Token) :
  plain nm = true ->
  In tk (output (fst (session nm inp n))) -> Type_ tk = Error ->
  exists text,
    Literal_ tk =
      "ERROR: " ++ nm ++ ": unsupported op: %!(EXTRA string=" ++ text ++ ")" \/
    Literal_ tk = "ERROR: " ++ nm ++ ": keyword doesn't exsit: " ++ text.
Proof.
  intros H I E.
  destruct (reached_session nm inp n) as (_ & _ & _ & _ & F).
  rewrite Forall_forall in F.
  destruct (F tk I) as [[_ (args & [L|L])]|[N _]]; [| |contradiction].
  - exists args. left. now rewrite L, diagnostic_op.
  - exists args. right. now rewrite L, diagnostic_keyword.
Qed.

Lemma error_literal_witness :
  plain "lex" = true /\
  In (mkToken Error "ERROR: lex: unsupported op: %!(EXTRA string=!)")
     (output (fst (session "lex" "!" 2))) /\
  exists text,
    "ERROR: lex: unsupported op: %!(EXTRA string=!)" =
      "ERROR: " ++ "lex" ++ ": unsupported op: %!(EXTRA string=" ++ text ++ ")"
    \/
    "ERROR: lex: unsupported op: %!(EXTRA string=!)" =
      "ERROR: " ++ "lex" ++ ": keyword doesn't exsit: " ++ text.
Proof.
  assert (P : plain "lex" = true) by reflexivity.
  assert (I : In (mkToken Error
                    "ERROR: lex: unsupported op: %!(EXTRA string=!)")
                 (output (fst (session "lex" "!" 2))))
    by (left; reflexivity).
  split; [exact P|]. split; [exact I|].
  exact (error_literal "lex" "!" 2 _ P I eq_refl).
Defined.

(** C5.  When dispatch reads an operator in an unsupported form, it calls
    errorf and then emit on the same span (the pending text with the
    operator, the following code point not included): an Error token and
    then an Op token with that span as literal are sent, and the state
    returned is dispatch: scanning goes on. *)
Theorem unsupported_op_nonfatal (l : Lexer) :
  pos l < len (input l) -> unsupported l ->
  let op := slice (input l) (start l) (pos l + 1) in
  expectAny l =
    (emit Op (errorf "unsupported op: " op (snd (next l))), Some ExpectAny) /\
  exists msg : string,
    output (fst (expectAny l)) =
      (output l ++ [mkToken Error msg; mkToken Op op])%list /\
    pos (fst (expectAny l)) = pos l + 1 /\
    start (fst (expectAny l)) = pos l + 1.
Proof.
  intros L U op.
  unfold unsupported in U. rewrite next_advance in *.
  cbn [snd] in U.
  assert (C : peek l <> rune ",").
  { destruct U as [[E _]|[[E _]|[E _]]]; rewrite E; discriminate. }
  pose proof (expectAny_unfold l L C) as E.
  cbn [expectAny_fuel] in E.
  assert (L' : (len (input l) <=? pos l) = false) by lia.
  rewrite L', next_advance in E.
  assert (W : width l = 1).
  { apply width_low.
    destruct U as [[P _]|[[P _]|[P _]]]; rewrite P; cbn; lia. }
  assert (O : cache (advance l) = op).
  { unfold cache, op, advance; cbn. now rewrite W. }
  assert (R : expectAny l =
              (emit Op (errorf "unsupported op: " op (advance l)),
               Some ExpectAny)).
  { rewrite O in E.
    destruct U as [(P & N1)|[(P & N1 & N2)|(P & N1 & N2 & N3)]];
      rewrite P in E; cbn [Z.eqb rune byte] in E;
      repeat match goal with
      | H : peek (advance l) <> _ |- _ => apply Z.eqb_neq in H; rewrite H in E
      end;
      cbn [negb andb orb] in E; now inversion E. }
  split; [exact R|].
  exists (diagnostic (name l) "unsupported op: " op).
  rewrite R.
  cbn [fst snd output emit errorf set_tokens set_start tokens send sent pos
       start advance set_pos name input cache].
  unfold diagnostic. rewrite W.
  change (cache (errorf "unsupported op: " op (advance l)))
    with (cache (advance l)).
  rewrite O, <- app_assoc. auto.
Qed.

Lemma unsupported_op_nonfatal_witness :
  pos (NewLexer "lex" "!a") < len (input (NewLexer "lex" "!a")) /\
  unsupported (NewLexer "lex" "!a") /\
  snd (expectAny (NewLexer "lex" "!a")) = Some ExpectAny /\
  exists msg : string,
    output (fst (expectAny (NewLexer "lex" "!a"))) =
      [mkToken Error msg; mkToken Op "!"] /\
    pos (fst (expectAny (NewLexer "lex" "!a"))) = 1 /\
    start (fst (expectAny (NewLexer "lex" "!a"))) = 1.
Proof.
  assert (L : pos (NewLexer "lex" "!a") < len (input (NewLexer "lex" "!a")))
    by reflexivity.
  assert (U : unsupported (NewLexer "lex" "!a")).
  { left. split; [reflexivity|]. vm_compute. discriminate. }
  split; [exact L|]. split; [exact U|].
  destruct (unsupported_op_nonfatal (NewLexer "lex" "!a") L U) as [A B].
  split; [now rewrite A|exact B].
Defined.

(** C6.  When the code point dispatch reads is in none of the classes it
    recognizes, dispatch returns the nil state without sending anything;
    the driver then leaves its loop and closes the channel, and no token
    (no Error, no EOF) has been sent for that code point. *)
Theorem silent_stop (l : Lexer) (n : nat) :
  pos l < len (input l) -> recognized (peek l) = false ->
  expectAny l = (snd (next l), None) /\
  output (snd (next l)) = output l /\
  snd (transform (S n) l) = None /\
  output (fst (transform (S n) l)) = output l /\
  closed (tokens (fst (transform (S n) l))) = true.
Proof.
  intros L R. unfold recognized in R.
  repeat match type of R with
  | (_ || _) = false => apply orb_false_elim in R; destruct R as [R ?]
  end.
  assert (C : peek l <> rune ",") by now apply Z.eqb_neq.
  pose proof (expectAny_unfold l L C) as E.
  cbn [expectAny_fuel] in E.
  assert (L' : (len (input l) <=? pos l) = false) by lia.
  rewrite L', next_advance in E.
  repeat match goal with
  | H : (_ =? _) = false |- _ => rewrite H in E; clear H
  | H : isDigit _ = false |- _ => rewrite H in E; clear H
  | H : isLetter _ = false |- _ => rewrite H in E; clear H
  end.
  cbn [orb] in E. injection E as E'. rewrite next_advance. cbn [snd].
  split; [exact E'|]. split; [reflexivity|].
  unfold transform. cbn [loop call]. rewrite E', loop_None.
  cbn. auto.
Qed.

Lemma silent_stop_witness :
  pos (NewLexer "lex" ";") < len (input (NewLexer "lex" ";")) /\
  recognized (peek (NewLexer "lex" ";")) = false /\
  snd (transform 1 (NewLexer "lex" ";")) = None /\
  output (fst (transform 1 (NewLexer "lex" ";"))) = [] /\
  closed (tokens (fst (transform 1 (NewLexer "lex" ";")))) = true.
Proof.
  assert (L : pos (NewLexer "lex" ";") < len (input (NewLexer "lex" ";")))
    by reflexivity.
  assert (R : recognized (peek (NewLexer "lex" ";")) = false)
    by (vm_compute; reflexivity).
  split; [exact L|]. split; [exact R|].
  exact (proj2 (proj2 (silent_stop (NewLexer "lex" ";") 0 L R))).
Defined.




(** C8.  The input "'abc'" gives one String token with the literal
    "'abc'", and "`table`" one Literal token with the literal "`table`",
    delimiters included; in both cases the scanner is back in dispatch.
    So does every quoted literal whose body does not contain its
    delimiter.  The token of the backtick state is the one emit would
    send: when the closing delimiter is read, expectLiteral is emit of
    the kind Literal, and expectString emit of the kind String. *)
Theorem quoted_round_trip (nm : string) :
  (snd (session nm "'abc'" 5) = Some ExpectAny /\
   output (fst (session nm "'abc'" 5)) = [mkToken String "'abc'"]) /\
  (snd (session nm "`table`" 7) = Some ExpectAny /\
   output (fst (session nm "`table`" 7)) = [mkToken Literal "`table`"]) /\
  (forall l : Lexer,
     fst (next l) = rune "`" ->
     expectLiteral l = (emit Literal (snd (next l)), Some ExpectAny)) /\
  (forall l : Lexer,
     fst (next l) = rune "'" ->
     expectString l = (emit String (snd (next l)), Some ExpectAny)) /\
  (forall body : string,
     strings.IndexByte body (rune "'") < 0 ->
     exists n : nat,
       snd (session nm ("'" ++ body ++ "'") n) = Some ExpectAny /\
       output (fst (session nm ("'" ++ body ++ "'") n)) =
       [mkToken String ("'" ++ body ++ "'")]) /\
  (forall body : string,
     strings.IndexByte body (rune "`") < 0 ->
     exists n : nat,
       snd (session nm ("`" ++ body ++ "`") n) = Some ExpectAny /\
       output (fst (session nm ("`" ++ body ++ "`") n)) =
       [mkToken Literal ("`" ++ body ++ "`")]).
Proof.
  split; [split; reflexivity|]. split; [split; reflexivity|].
  split; [|split; [|split]].
  - intros l H. rewrite expectLiteral_emit. rewrite next_advance in *.
    cbn [fst snd] in *. now rewrite H.
  - intros l H. unfold expectString. rewrite next_advance in *.
    cbn [fst snd] in *. now rewrite H.
  - intros body H.
    apply (quoted_session "'" ExpectString nm body); [|exact H].
    left. split; reflexivity.
  - intros body H.
    apply (quoted_session "`" ExpectLiteral nm body); [|exact H].
    right. split; reflexivity.
Qed.

Lemma quoted_round_trip_witness :
  (fst (next (set_pos (NewLexer "lex" "`a`") 2)) = rune "`" /\
   output (fst (expectLiteral (set_pos (NewLexer "lex" "`a`") 2))) =
     [mkToken Literal "`a`"]) /\
  (strings.IndexByte "it is" (rune "'") < 0 /\
   exists n : nat,
     snd (session "lex" "'it is'" n) = Some ExpectAny /\
     output (fst (session "lex" "'it is'" n)) = [mkToken String "'it is'"]).
Proof.
  assert (H : fst (next (set_pos (NewLexer "lex" "`a`") 2)) = rune "`")
    by reflexivity.
  assert (B : strings.IndexByte "it is" (rune "'") < 0) by reflexivity.
  destruct (quoted_round_trip "lex") as (_ & _ & A & _ & C & _).
  split; [split; [exact H|]|split; [exact B|]].
  - rewrite (A _ H). reflexivity.
  - exact (C "it is" B).
Defined.

(** C9.  Once the driver has returned, the channel is closed, and every
    call to Tokenize beyond the tokens that were sent returns at once the
    zero Token, whose kind is Error (number 0, not EOF) and whose literal
    is empty, together with the error "Error". *)
Theorem tokenize_after_close (nm inp : string) (n m k : nat) :
  snd (session nm inp n) = None -> (n <= m)%nat ->
  (List.length (output (fst (session nm inp n))) <= k)%nat ->
  closed (tokens (fst (session nm inp m))) = true /\
  Tokenize (fst (session nm inp m)) k = Some (zeroToken, Some "Error") /\
  Type_ zeroToken = Error /\ iota (Type_ zeroToken) = 0 /\
  Type_ zeroToken <> EOF /\ Literal_ zeroToken = "".
Proof.
  intros H L K.
  assert (E : session nm inp m = session nm inp n)
    by now apply loop_stable.
  rewrite E.
  assert (C : closed (tokens (fst (session nm inp n))) = true).
  { rewrite closed_session. now rewrite H. }
  split; [exact C|]. split; [|repeat split; discriminate].
  unfold Tokenize, recv. unfold output in K.
  apply nth_error_None in K. rewrite K, C. reflexivity.
Qed.

Lemma tokenize_after_close_witness :
  snd (session "lex" "select ;" 4) = None /\
  output (fst (session "lex" "select ;" 4)) = [mkToken Select "select"] /\
  Tokenize (fst (session "lex" "select ;" 9)) 1 =
    Some (mkToken Error "", Some "Error").
Proof.
  assert (H : snd (session "lex" "select ;" 4) = None) by reflexivity.
  split; [exact H|]. split; [reflexivity|].
  refine (proj1 (proj2 (tokenize_after_close "lex" "select ;" 4 9 1 H _ _)));
    vm_compute; lia.
Defined.

(** C10.  The branches for '!', '>' and '<' only peek at the
    following code point: they leave the cursor one byte after the
    operator, so every Op token of a session has a literal of one byte.
    The input "!=" gives the two consecutive tokens Op "!" and Op "=";
    the input "<>" gives Op "<" and Op ">" with a diagnostic between them,
    the '>' at the end of the input being followed by neither '=' nor a
    space.  No Op token has two characters. *)
Theorem op_one_character (nm : string) :
  (forall (inp : string) (n : nat) (tk : Token),
     In tk (output (fst (session nm inp n))) -> Type_ tk = Op ->
     len (Literal_ tk) = 1) /\
  (forall l : Lexer,
     pos l < len (input l) ->
     peek l = rune "!" \/ peek l = rune ">" \/ peek l = rune "<" ->
     snd (expectAny l) = Some ExpectAny /\
     pos (fst (expectAny l)) = pos l + 1 /\
     start (fst (expectAny l)) = pos l + 1) /\
  (forall n : nat, (3 <= n)%nat ->
     output (fst (session nm "!=" n)) =
     [mkToken Op "!"; mkToken Op "="; mkToken EOF ""]) /\
  (forall n : nat, (3 <= n)%nat ->
     exists msg : string,
       output (fst (session nm "<>" n)) =
       [mkToken Op "<"; mkToken Error msg; mkToken Op ">"; mkToken EOF ""]).
Proof.
  split; [|split; [|split]].
  - intros inp n tk I O.
    destruct (reached_session nm inp n) as (_ & _ & _ & _ & F).
    rewrite Forall_forall in F.
    destruct (F tk I) as [[E _]|(_ & a & b & H1 & H2 & H3 & H4 & _ & H6)].
    + congruence.
    + rewrite H4, len_slice; [|lia|lia]. specialize (H6 O). lia.
  - intros l L P.
    destruct (operator_branch l L P) as (l' & E & P' & S').
    rewrite E. cbn. auto.
  - intros n H.
    assert (E : session nm "!=" n = session nm "!=" 3)
      by (apply loop_stable; [reflexivity|exact H]).
    rewrite E. reflexivity.
  - intros n H. exists (diagnostic nm "unsupported op: " ">").
    assert (E : session nm "<>" n = session nm "<>" 3)
      by (apply loop_stable; [reflexivity|exact H]).
    rewrite E. vm_compute. reflexivity.
Qed.

Lemma op_one_character_witness :
  (In (mkToken Op "<") (output (fst (session "lex" "<>" 3))) /\
   len "<" = 1) /\
  (pos (NewLexer "lex" "<>") < len (input (NewLexer "lex" "<>")) /\
   pos (fst (expectAny (NewLexer "lex" "<>"))) = 1) /\
  output (fst (session "lex" "!=" 3)) =
    [mkToken Op "!"; mkToken Op "="; mkToken EOF ""] /\
  exists msg : string,
    output (fst (session "lex" "<>" 3)) =
    [mkToken Op "<"; mkToken Error msg; mkToken Op ">"; mkToken EOF ""].
Proof.
  destruct (op_one_character "lex") as (A & B & C & D).
  assert (I : In (mkToken Op "<") (output (fst (session "lex" "<>" 3))))
    by (left; reflexivity).
  assert (L : pos (NewLexer "lex" "<>") < len (input (NewLexer "lex" "<>")))
    by reflexivity.
  split; [split; [exact I|]|split; [split; [exact L|]|split]].
  - exact (A "<>" 3%nat (mkToken Op "<") I eq_refl).
  - refine (proj1 (proj2 (B (NewLexer "lex" "<>") L _))).
    right; right; reflexivity.
  - apply (C 3%nat). lia.
  - apply (D 3%nat). lia.
Defined.

(** C10, counterexample.  On "<>" the two Op tokens are not consecutive:
    a diagnostic is sent between them. *)
Lemma op_pair_counterexample :
  snd (session "lex" "<>" 3) = None /\
  output (fst (session "lex" "<>" 3)) =
    [ mkToken Op "<";
      mkToken Error "ERROR: lex: unsupported op: %!(EXTRA string=>)";
      mkToken Op ">"; mkToken EOF "" ] /\
  ~ (exists pre post : list Token,
       output (fst (session "lex" "<>" 3)) =
       (pre ++ mkToken Op "<" :: mkToken Op ">" :: post)%list).
Proof.
  split; [reflexivity|]. split; [reflexivity|].
  intros (pre & post & E). vm_compute in E.
  destruct pre as [|t1 [|t2 [|t3 [|t4 [|t5 pre]]]]]; discriminate E.
Qed.

(** ** Further properties of the scanner *)

Lemma strip_app (a b : string) : strip (a ++ b) = strip a ++ strip b.
Proof.
  induction a as [|c a IH]; cbn; [reflexivity|].
  destruct (is_blank c); cbn; congruence.
Qed.

Lemma spelled_app (a b : list Token) :
  spelled (a ++ b) = spelled a ++ spelled b.
Proof.
  induction a as [|tk a IH]; cbn; [reflexivity|].
  now rewrite IH, append_assoc.
Qed.

Lemma take_drop (n m : nat) (s : string) :
  take n s ++ take m (drop n s) = take (n + m) s.
Proof.
  revert s. induction n as [|n IH]; intros [|c s]; cbn; try reflexivity.
  - now destruct m.
  - now rewrite IH.
Qed.

Lemma slice_app (s : string) (a b c : Z) :
  0 <= a -> a <= b -> b <= c ->
  slice s a b ++ slice s b c = slice s a c.
Proof.
  intros A B C. unfold slice.
  replace (from s b) with (from (from s a) (b - a))
    by (rewrite from_from by lia; f_equal; lia).
  unfold from at 2. rewrite take_drop. f_equal. lia.
Qed.

Lemma strip_blank (s : string) : blank s = true -> strip s = "".
Proof.
  induction s as [|c s IH]; cbn; [reflexivity|].
  intros H. apply andb_prop in H. destruct H as [H1 H2].
  rewrite H1. now apply IH.
Qed.

Lemma width_positive (l : Lexer) :
  0 <= pos l -> pos l < len (input l) -> 1 <= width l.
Proof.
  intros P L. unfold width.
  apply (proj2 (decode_width (from (input l) (pos l)))).
  intros E.
  assert (H : len (from (input l) (pos l)) = len (input l) - pos l)
    by (apply len_from; lia).
  rewrite E in H. cbn in H. lia.
Qed.

Lemma backup_advance (l : Lexer) : start l = pos l -> backup (advance l) = l.
Proof. destruct l as [nm inp s p c]. cbn. now intros ->. Qed.

Lemma IndexByte_found (n : nat) (s : string) (c : ascii) (rest : string) :
  drop n s = String.String c rest -> 0 <= strings.IndexByte s (byte c).
Proof.
  intros H.
  destruct (Z_lt_ge_dec (strings.IndexByte s (byte c)) 0) as [L|G]; [|lia].
  apply (IndexByte_drop n) in L. rewrite H in L.
  apply IndexByte_head in L. lia.
Qed.

(** The code point under the cursor, when it is an ASCII one, is a byte of
    the input. *)
Lemma peek_found (l : Lexer) (r : Z) :
  peek l = r -> r < 128 -> 0 <= strings.IndexByte (input l) r.
Proof.
  intros E R. assert (L : peek l < 128) by lia.
  destruct (peek_low l L) as (c & rest & F & B & _).
  rewrite <- E, <- B. eapply IndexByte_found. exact F.
Qed.

Lemma peek_not_end (l : Lexer) :
  peek l < 128 -> pos l < len (input l).
Proof.
  intros L.
  destruct (Z_lt_ge_dec (pos l) (len (input l))) as [B|G]; [exact B|].
  destruct (peek_end l) as [E _]; [lia|].
  rewrite E in L. unfold utf8.RuneError in L. lia.
Qed.

(** The byte dispatch discards is a space or a newline. *)
Lemma strip_discarded (l : Lexer) :
  0 <= pos l ->
  (peek l =? rune " ") || (peek l =? rune newline) = true ->
  strip (slice (input l) (pos l) (pos l + width l)) = "".
Proof.
  intros P H.
  assert (L : peek l < 128) by (runes; lia).
  destruct (peek_low l L) as (c & rest & F & B & W).
  rewrite W, (slice_head _ _ _ c rest), slice_empty by (auto; lia).
  cbn [strip]. unfold is_blank. now rewrite B, H.
Qed.

Lemma keyword_produced (s : string) (k : TokenType) :
  keyword s = Some k -> produced k = true /\ k <> EOF /\ k <> Error.
Proof.
  unfold keyword.
  repeat match goal with
  | |- context [if ?b then _ else _] => destruct b
  end; intros E; inversion E; repeat split; discriminate.
Qed.

Lemma letters_fuel_S (fuel : nat) (l : Lexer) :
  isLetter (peek l) = true ->
  letters_fuel (S fuel) l = letters_fuel fuel (advance l).
Proof. intros H. cbn [letters_fuel]. now rewrite H, next_advance. Qed.

(** The keyword state, entered on a letter, consumes it. *)
Lemma letters_progress (l : Lexer) :
  inv l -> isLetter (peek l) = true -> pos l + 1 <= pos (letters l).
Proof.
  intros V H.
  pose proof (isLetter_low _ H) as L.
  pose proof (peek_not_end l L) as B.
  unfold letters. destruct (remaining l) as [|k] eqn:R.
  { unfold remaining in R. lia. }
  rewrite letters_fuel_S by assumption.
  pose proof (letters_fuel_advanced k (advance l) (inv_advance l V))
    as (_ & _ & _ & _ & A & _).
  cbn [pos advance set_pos] in A. rewrite (width_low l L) in A. exact A.
Qed.

Lemma digits_fuel_S (fuel : nat) (l : Lexer) :
  isDigit (peek l) = true ->
  digits_fuel (S fuel) l = digits_fuel fuel (advance l).
Proof. intros H. cbn [digits_fuel]. now rewrite H, next_advance. Qed.

(** The number state, entered on a digit, consumes it. *)
Lemma digits_progress (l : Lexer) :
  inv l -> isDigit (peek l) = true -> pos l + 1 <= pos (digits l).
Proof.
  intros V H.
  pose proof (isDigit_low _ H) as L.
  pose proof (peek_not_end l L) as B.
  unfold digits. destruct (remaining l) as [|k] eqn:R.
  { unfold remaining in R. lia. }
  rewrite digits_fuel_S by assumption.
  pose proof (digits_fuel_advanced k (advance l) (inv_advance l V))
    as (_ & _ & _ & _ & A & _).
  cbn [pos advance set_pos] in A. rewrite (width_low l L) in A. exact A.
Qed.

Ltac fields :=
  cbn [name input start pos tokens emit errorf ignore backup advance
       set_pos set_start set_tokens send sent closed output fst snd].

Ltac spec_split new :=
  unfold call_spec;
  split; [inv_tac | split; [ | split;
    [fields; first [reflexivity | assumption] | split; [ | split;
    [ | exists new; split; [ | split; [ | split ]]]]]]].

Lemma expectString_spec (l : Lexer) :
  inv l -> entered (Some ExpectString) l ->
  call_spec ExpectString l (fst (expectString l)) (snd (expectString l)).
Proof.
  intros V E. unfold expectString. rewrite next_advance.
  pose proof (inv_advance l V) as V1.
  destruct V as (V0 & V2 & V3).
  destruct (peek l =? rune "'") eqn:Q; cbn [fst snd].
  - assert (W : width l = 1) by (apply width_low; runes; lia).
    spec_split [mkToken String (cache (advance l))].
    + reflexivity.
    + fields. lia.
    + right. left. unfold mu. fields. lia.
    + reflexivity.
    + repeat constructor.
    + left. repeat constructor. discriminate.
    + cbn [spelled Type_ Literal_ iota Z.eqb]. now rewrite append_nil_r.
  - spec_split (@nil Token).
    + exact E.
    + fields. lia.
    + destruct (Z_lt_ge_dec (pos l) (len (input l))) as [B|G].
      * right. left. pose proof (width_positive l). unfold mu. fields. lia.
      * right. right. destruct (peek_end l) as [_ W]; [lia|].
        unfold hung. fields. repeat split; auto; lia.
    + fields. now rewrite app_nil_r.
    + constructor.
    + left. constructor.
    + fields. cbn [spelled]. now rewrite slice_empty.
Qed.

Lemma expectLiteral_spec (l : Lexer) :
  inv l -> entered (Some ExpectLiteral) l ->
  call_spec ExpectLiteral l (fst (expectLiteral l)) (snd (expectLiteral l)).
Proof.
  intros V E. rewrite expectLiteral_emit.
  pose proof (inv_advance l V) as V1.
  destruct V as (V0 & V2 & V3).
  destruct (peek l =? rune "`") eqn:Q; cbn [fst snd].
  - assert (W : width l = 1) by (apply width_low; runes; lia).
    spec_split [mkToken t (cache (advance l))].
    + reflexivity.
    + fields. lia.
    + right. left. unfold mu. fields. lia.
    + reflexivity.
    + repeat constructor.
    + left. repeat constructor. discriminate.
    + cbn [spelled Type_ Literal_ iota Z.eqb t]. now rewrite append_nil_r.
  - spec_split (@nil Token).
    + exact E.
    + fields. lia.
    + destruct (Z_lt_ge_dec (pos l) (len (input l))) as [B|G].
      * right. left. pose proof (width_positive l). unfold mu. fields. lia.
      * right. right. destruct (peek_end l) as [_ W]; [lia|].
        unfold hung. fields. repeat split; auto; lia.
    + fields. now rewrite app_nil_r.
    + constructor.
    + left. constructor.
    + fields. cbn [spelled]. now rewrite slice_empty.
Qed.

Lemma expectKeyword_spec (l : Lexer) :
  inv l -> entered (Some ExpectKeyword) l ->
  call_spec ExpectKeyword l (fst (expectKeyword l)) (snd (expectKeyword l)).
Proof.
  intros V [SP L]. unfold expectKeyword.
  pose proof (letters_fuel_advanced (remaining l) l V) as A.
  fold (letters l) in A.
  pose proof (advanced_inv l _ V A) as V1.
  pose proof (letters_progress l V L) as G.
  destruct A as (A1 & A2 & A3 & A4 & A5 & A6).
  destruct V as (V0 & V2 & V3).
  destruct (keyword (strings.ToUpper (cache (letters l)))) as [k|] eqn:K;
    cbn [fst snd].
  - destruct (keyword_produced _ _ K) as (K1 & K2 & K3).
    spec_split [mkToken k (cache (letters l))].
    + reflexivity.
    + fields. lia.
    + right. left. unfold mu. fields. rewrite A2. lia.
    + fields. now rewrite A4.
    + repeat constructor. exact K1.
    + left. repeat constructor. exact K2.
    + cbn [spelled Type_ Literal_]. fields.
      replace (iota k =? iota Error) with false
        by (destruct k; try reflexivity; contradiction).
      rewrite append_nil_r. unfold cache. now rewrite A2, A3.
  - spec_split [mkToken Error
                  (diagnostic (name (letters l)) "keyword doesn't exsit: %s"
                     (cache (letters l)))].
    + exact Logic.I.
    + fields. lia.
    + now left.
    + fields. now rewrite A4.
    + repeat constructor.
    + left. repeat constructor. discriminate.
    + fields. cbn [spelled Type_ iota Z.eqb append]. rewrite A3.
      now rewrite slice_empty.
Qed.

Lemma expectNumber_spec (l : Lexer) :
  inv l -> entered (Some ExpectNumber) l ->
  call_spec ExpectNumber l (fst (expectNumber l)) (snd (expectNumber l)).
Proof.
  intros V [SP L]. unfold expectNumber; cbn [fst snd].
  pose proof (digits_progress l V L) as G.
  set (l1 := digits l) in *.
  assert (A1 : advanced l l1) by now apply digits_fuel_advanced.
  set (l2 := if peek l1 =? rune "." then snd (next l1) else l1).
  assert (A2 : advanced l1 l2).
  { subst l2. destruct (peek l1 =? rune ".").
    - rewrite next_advance; cbn [snd]. apply advance_advanced.
      eapply advanced_inv; eauto.
    - apply advanced_refl. eapply advanced_inv; eauto. }
  assert (V2 : inv l2).
  { eapply advanced_inv; [|exact A2]. eapply advanced_inv; eauto. }
  set (l3 := digits l2).
  assert (A3 : advanced l2 l3) by now apply digits_fuel_advanced.
  assert (A : advanced l l3).
  { eapply advanced_trans; [exact A1|].
    eapply advanced_trans; [exact A2|exact A3]. }
  assert (V3 : inv l3) by (eapply advanced_inv; eauto).
  assert (G3 : pos l + 1 <= pos l3).
  { destruct A2 as (_ & _ & _ & _ & B2 & _).
    destruct A3 as (_ & _ & _ & _ & B3 & _). lia. }
  destruct A as (B1 & B2 & B3 & B4 & B5 & B6).
  destruct V as (V0 & V4 & V5).
  spec_split [mkToken Number (cache l3)].
  - reflexivity.
  - fields. lia.
  - right. left. unfold mu. fields. rewrite B2. lia.
  - fields. now rewrite B4.
  - repeat constructor.
  - left. repeat constructor. discriminate.
  - cbn [spelled Type_ Literal_ iota Z.eqb]. fields.
    rewrite append_nil_r. unfold cache. now rewrite B2, B3.
Qed.

(** A call of dispatch that sends a comma and calls dispatch again. *)
Lemma call_spec_comma (l : Lexer) (r : Lexer * option State) :
  inv l -> start l = pos l -> peek l = rune "," ->
  call_spec ExpectAny (emit Sep (advance l)) (fst r) (snd r) ->
  call_spec ExpectAny l (fst r) (snd r).
Proof.
  intros V SP C (V' & E' & I' & S' & P' & new & O & F & L & T).
  assert (W : width l = 1) by (apply width_low; rewrite C; cbn; lia).
  destruct V as (V0 & V1 & V2).
  fields. split; [exact V'|]. split; [exact E'|]. split; [exact I'|].
  revert S' P' O T. fields. rewrite W. intros S' P' O T.
  split; [lia|]. split.
  - destruct P' as [P'|[P'|(P1 & [[P2|P2] _] & _)]];
      [now left| |discriminate P2|discriminate P2].
    right. left. unfold mu in *. revert P'. fields. rewrite W.
    destruct (snd r) as [[]|]; lia.
  - exists (mkToken Sep (cache (advance l)) :: new). split; [|split; [|split]].
    + rewrite O. unfold output. now rewrite <- app_assoc.
    + constructor; [reflexivity|exact F].
    + destruct L as [L|(L1 & L2 & L3 & pre & L4 & L5)].
      * left. constructor; [discriminate|exact L].
      * right. repeat split; auto.
        exists (mkToken Sep (cache (advance l)) :: pre). split.
        -- now rewrite L4.
        -- constructor; [discriminate|exact L5].
    + cbn [spelled Type_ Literal_ iota Z.eqb]. rewrite strip_app, T.
      rewrite <- strip_app. f_equal. unfold cache. fields. rewrite W.
      apply slice_app; lia.
Qed.

Lemma cache_entry (l : Lexer) : start l = pos l -> cache l = "".
Proof. intros H. unfold cache. rewrite H. apply slice_empty. Qed.

Ltac spec_auto :=
  try reflexivity; try exact Logic.I; try assumption;
  try (repeat constructor; discriminate);
  try (fields; lia);
  try (right; left; unfold mu; fields; lia);
  try (fields; now rewrite app_nil_r);
  try (fields; now rewrite <- app_assoc);
  try (left; repeat constructor; discriminate);
  try (cbn [spelled Type_ Literal_ iota Z.eqb append]; fields;
       rewrite ?append_nil_r; unfold cache; fields;
       first [reflexivity | now rewrite slice_empty]).

Ltac branch H r new :=
  injection H as <-; cbn [fst snd]; spec_split new; spec_auto.

Lemma expectAny_fuel_spec (fuel : nat) (l : Lexer)
      (r : Lexer * option State) :
  expectAny_fuel fuel l = Some r -> inv l -> start l = pos l ->
  call_spec ExpectAny l (fst r) (snd r).
Proof.
  revert l. induction fuel as [|fuel IH]; intros l H V SP; [discriminate|].
  cbn [expectAny_fuel] in H.
  pose proof (inv_advance l V) as V1.
  pose proof V as (V0 & V2 & V3).
  destruct (len (input l) <=? pos l) eqn:B.
  { injection H as <-; cbn [fst snd].
    spec_split [mkToken EOF ""]; spec_auto.
    - fields. now rewrite (cache_entry l SP).
    - right. fields. repeat split; try lia.
      exists []. split; [reflexivity|constructor].
    - fields. rewrite SP. now rewrite slice_empty. }
  rewrite next_advance in H.
  assert (W0 : 1 <= width l) by (apply width_positive; lia).
  destruct (peek l =? rune "'") eqn:Q1.
  { branch H r (@nil Token).
    apply (peek_found l); [now apply Z.eqb_eq|cbn; lia]. }
  destruct (peek l =? rune "`") eqn:Q2.
  { branch H r (@nil Token).
    apply (peek_found l); [now apply Z.eqb_eq|cbn; lia]. }
  destruct ((peek l =? rune " ") || (peek l =? rune newline)) eqn:Q3.
  { branch H r (@nil Token).
    fields. cbn [spelled]. rewrite SP. symmetry.
    apply strip_discarded; [lia|exact Q3]. }
  destruct (peek l =? rune "*") eqn:Q4.
  { branch H r [mkToken Star (cache (advance l))]. }
  destruct (peek l =? rune ",") eqn:Q5.
  { apply call_spec_comma; auto.
    - now apply Z.eqb_eq.
    - apply IH; auto; try reflexivity; inv_tac. }
  destruct ((peek l =? rune "=") || (peek l =? rune "+")
            || (peek l =? rune "-") || (peek l =? rune "/")) eqn:O.
  { branch H r [mkToken Op (cache (advance l))]. }
  destruct (peek l =? rune "!") eqn:O1.
  { destruct (negb (peek (advance l) =? rune "=")).
    - branch H r
        [mkToken Error (diagnostic (name l) "unsupported op: "
                          (cache (advance l)));
         mkToken Op (cache (advance l))].
    - branch H r [mkToken Op (cache (advance l))]. }
  destruct (peek l =? rune ">") eqn:O2.
  { destruct (negb (peek (advance l) =? rune "=")
              && negb (peek (advance l) =? rune " ")).
    - branch H r
        [mkToken Error (diagnostic (name l) "unsupported op: "
                          (cache (advance l)));
         mkToken Op (cache (advance l))].
    - branch H r [mkToken Op (cache (advance l))]. }
  destruct (peek l =? rune "<") eqn:O3.
  { destruct (negb (peek (advance l) =? rune "=")
              && negb (peek (advance l) =? rune " ")
              && negb (peek (advance l) =? rune ">")).
    - branch H r
        [mkToken Error (diagnostic (name l) "unsupported op: "
                          (cache (advance l)));
         mkToken Op (cache (advance l))].
    - branch H r [mkToken Op (cache (advance l))]. }
  destruct (isDigit (peek l)) eqn:D.
  { rewrite (backup_advance l SP) in H. branch H r (@nil Token).
    now split. }
  destruct (isLetter (peek l)) eqn:L.
  { rewrite (backup_advance l SP) in H. branch H r (@nil Token).
    now split. }
  branch H r (@nil Token).
Qed.

Lemma call_spec_call (s : State) (l : Lexer) :
  inv l -> entered (Some s) l ->
  call_spec s l (fst (call s l)) (snd (call s l)).
Proof.
  intros V E. destruct s; cbn [call].
  - eapply expectAny_fuel_spec; eauto. apply expectAny_fuel_eq.
  - now apply expectKeyword_spec.
  - now apply expectString_spec.
  - now apply expectLiteral_spec.
  - now apply expectNumber_spec.
Qed.

Lemma eof_last_running (s : State) (l : Lexer) (toks : list Token) :
  eof_last (Some s) l toks -> Forall (fun tk => Type_ tk <> EOF) toks.
Proof. intros [H|(H & _)]; [exact H|discriminate]. Qed.

Lemma scanned_call (inp : string) (s : State) (l : Lexer) :
  scanned inp l (Some s) ->
  scanned inp (fst (call s l)) (snd (call s l)).
Proof.
  intros (V & E & I & F & L & T).
  destruct (call_spec_call s l V E)
    as (V' & E' & I' & S' & _ & new & O & F' & L' & T').
  apply eof_last_running in L.
  pose proof V as (V0 & V1 & V2). pose proof V' as (V0' & V1' & V2').
  split; [exact V'|]. split; [exact E'|]. split; [congruence|].
  rewrite O. split; [|split].
  - apply Forall_app. now split.
  - destruct L' as [L'|(L1 & L2 & L3 & pre & L4 & L5)].
    + left. apply Forall_app. now split.
    + right. repeat split; auto. exists (output l ++ pre)%list. split.
      * now rewrite L4, app_assoc.
      * apply Forall_app. now split.
  - rewrite spelled_app, strip_app, T, T', <- strip_app. f_equal.
    rewrite I. apply slice_app; lia.
Qed.

Lemma scanned_loop (inp : string) (n : nat) (st : option State)
      (l : Lexer) :
  scanned inp l st -> scanned inp (fst (loop n st l)) (snd (loop n st l)).
Proof.
  revert st l. induction n as [|n IH]; intros [s|] l H;
    try rewrite loop_None; cbn [fst snd]; auto.
  cbn [loop]. pose proof (scanned_call inp s l H) as R.
  destruct (call s l) as [l' st']. now apply IH.
Qed.

Lemma scanned_session (nm inp : string) (n : nat) :
  scanned inp (fst (session nm inp n)) (snd (session nm inp n)).
Proof.
  apply scanned_loop. split; [apply inv_NewLexer|].
  split; [reflexivity|]. split; [reflexivity|]. split; [constructor|].
  split; [left; constructor|].
  change (start (NewLexer nm inp)) with 0. now rewrite slice_empty.
Qed.

(** At the end of the input a quoted state reads nothing and stays. *)
Lemma hung_call (s : State) (l : Lexer) :
  hung (Some s) l -> call s l = (advance l, Some s) /\ width l = 0.
Proof.
  intros [Q E]. destruct (peek_end l E) as [P W]. split; [|exact W].
  destruct Q as [Q|Q]; injection Q as ->; cbn [call].
  - unfold expectString. now rewrite next_advance, P.
  - now rewrite expectLiteral_emit, P.
Qed.

Lemma hung_loop (k : nat) (s : State) (l : Lexer) :
  hung (Some s) l ->
  snd (loop k (Some s) l) = Some s /\
  hung (Some s) (fst (loop k (Some s) l)) /\
  tokens (fst (loop k (Some s) l)) = tokens l.
Proof.
  revert l. induction k as [|k IH]; intros l H.
  { cbn [loop fst snd]. auto. }
  destruct (hung_call s l H) as [C W]. cbn [loop]. rewrite C.
  assert (H' : hung (Some s) (advance l)).
  { destruct H as [Q E]. split; [exact Q|]. fields. lia. }
  destruct (IH (advance l) H') as (A & B & T). auto.
Qed.

Lemma mu_positive (inp : string) (s : State) (l : Lexer) :
  scanned inp l (Some s) -> 1 <= mu (Some s) l.
Proof.
  intros ((V0 & V1 & V2) & E & _). unfold mu.
  destruct s; try lia; destruct E as [_ E].
  - pose proof (peek_not_end l (isLetter_low _ E)). lia.
  - pose proof (peek_not_end l (isDigit_low _ E)). lia.
Qed.

(** After as many calls as the bound says, the driver has returned or is
    in a quoted state at the end of the input. *)
Lemma loop_bound (inp : string) (k : nat) (st : option State) (l : Lexer) :
  scanned inp l st -> mu st l <= Z.of_nat k ->
  snd (loop k st l) = None \/
  hung (snd (loop k st l)) (fst (loop k st l)).
Proof.
  revert st l. induction k as [|k IH]; intros [s|] l H M;
    try (rewrite loop_None; now left).
  - pose proof (mu_positive inp s l H). lia.
  - pose proof (scanned_call inp s l H) as R.
    destruct H as (V & E & _).
    destruct (call_spec_call s l V E) as (_ & _ & _ & _ & P & _).
    cbn [loop]. destruct (call s l) as [l' st']. cbn [fst snd] in *.
    destruct P as [->|[P|(-> & _ & P & _)]].
    + rewrite loop_None. now left.
    + apply IH; [exact R|lia].
    + destruct (hung_loop k s l' P) as (A & B & _). right. now rewrite A.
Qed.

(** X1.  No session sends a token of kind Dot, Paren, DblString, And, Or,
    Between, True, False, Null, Is, Not, Like or Exists: every token sent
    has one of the other kinds. *)
Theorem kinds_never_sent (nm inp : string) (n : nat) (tk : Token) :
  In tk (output (fst (session nm inp n))) -> produced (Type_ tk) = true.
Proof.
  intros H. destruct (scanned_session nm inp n) as (_ & _ & _ & F & _).
  rewrite Forall_forall in F. now apply F.
Qed.

Lemma kinds_never_sent_witness :
  In (mkToken Number "12.5") (output (fst (session "lex" "12.5 and 3" 3))) /\
  produced Number = true /\ produced And = false.
Proof.
  assert (H : In (mkToken Number "12.5")
                 (output (fst (session "lex" "12.5 and 3" 3))))
    by (left; reflexivity).
  split; [exact H|]. split; [|reflexivity].
  exact (kinds_never_sent "lex" "12.5 and 3" 3 _ H).
Defined.

(** X2.  An EOF token is sent only by the call that ends the scan, at the
    end of the input: it is the last token of the session, no other EOF
    token comes before it, its literal is empty, and both offsets are the
    length of the input. *)
Theorem eof_is_last (nm inp : string) (n : nat) (tk : Token) :
  In tk (output (fst (session nm inp n))) -> Type_ tk = EOF ->
  snd (session nm inp n) = None /\
  Literal_ tk = "" /\
  start (fst (session nm inp n)) = len inp /\
  pos (fst (session nm inp n)) = len inp /\
  exists pre,
    output (fst (session nm inp n)) = (pre ++ [tk])%list /\
    Forall (fun tk' => Type_ tk' <> EOF) pre.
Proof.
  intros H E.
  destruct (scanned_session nm inp n) as (_ & _ & I & _ & L & _).
  destruct L as [L|(L1 & L2 & L3 & pre & L4 & L5)].
  - rewrite Forall_forall in L. now apply L in H.
  - rewrite L4 in H. apply in_app_or in H. destruct H as [H|[<-|[]]].
    + rewrite Forall_forall in L5. now apply L5 in H.
    + rewrite I in L2, L3. repeat split; auto. now exists pre.
Qed.

Lemma eof_is_last_witness :
  In (mkToken EOF "") (output (fst (session "lex" "select *" 9))) /\
  snd (session "lex" "select *" 9) = None /\
  start (fst (session "lex" "select *" 9)) = 8 /\
  exists pre,
    output (fst (session "lex" "select *" 9)) =
    (pre ++ [mkToken EOF ""])%list.
Proof.
  assert (H : In (mkToken EOF "")
                 (output (fst (session "lex" "select *" 9))))
    by (vm_compute; tauto).
  split; [exact H|].
  destruct (eof_is_last "lex" "select *" 9 _ H eq_refl)
    as (A & _ & B & _ & pre & C & _).
  split; [exact A|]. split; [exact B|]. now exists pre.
Defined.

(** X3.  Spaces and newlines aside, the literals of the tokens sent so
    far, diagnostics excluded, spell the input up to the start offset;
    once the EOF token is sent they spell the whole input. *)
Theorem tokens_spell_input (nm inp : string) (n : nat) :
  strip (spelled (output (fst (session nm inp n)))) =
    strip (slice inp 0 (start (fst (session nm inp n)))) /\
  (In (mkToken EOF "") (output (fst (session nm inp n))) ->
   strip (spelled (output (fst (session nm inp n)))) = strip inp).
Proof.
  destruct (scanned_session nm inp n) as (_ & _ & I & _ & L & T).
  split; [exact T|]. intros H. rewrite T.
  destruct L as [L|(_ & L2 & _)].
  - rewrite Forall_forall in L. now apply L in H.
  - rewrite L2, I. now rewrite slice_all.
Qed.

Lemma tokens_spell_input_witness :
  In (mkToken EOF "") (output (fst (session "lex" "select *, 'a b'" 30))) /\
  strip (spelled (output (fst (session "lex" "select *, 'a b'" 30)))) =
    "select*,'ab'".
Proof.
  assert (H : In (mkToken EOF "")
                 (output (fst (session "lex" "select *, 'a b'" 30))))
    by (vm_compute; tauto).
  split; [exact H|].
  exact (proj2 (tokens_spell_input "lex" "select *, 'a b'" 30) H).
Defined.

Lemma session_bound (nm inp : string) (n : nat) :
  (2 * String.length inp + 1 <= n)%nat ->
  snd (session nm inp n) = None \/
  hung (snd (session nm inp n)) (fst (session nm inp n)).
Proof.
  intros H. unfold session, transform.
  replace n with ((2 * String.length inp + 1) + (n - (2 * String.length inp + 1)))%nat
    by lia.
  rewrite loop_add.
  set (k := (2 * String.length inp + 1)%nat).
  pose proof (scanned_loop inp k (Some ExpectAny) (NewLexer nm inp)) as S.
  destruct (loop_bound inp k (Some ExpectAny) (NewLexer nm inp)) as [B|B].
  - apply scanned_session with (n := O).
  - unfold mu, len. cbn [input pos NewLexer]. lia.
  - rewrite B, loop_None. now left.
  - destruct (loop k (Some ExpectAny) (NewLexer nm inp)) as [l st].
    cbn [fst snd] in *. destruct B as [[B|B] E]; subst st.
    + destruct (hung_loop (n - k) ExpectString l) as (A1 & A2 & _).
      { split; auto. }
      right. now rewrite A1.
    + destruct (hung_loop (n - k) ExpectLiteral l) as (A1 & A2 & _).
      { split; auto. }
      right. now rewrite A1.
Qed.

(** X4.  After 2 * len(input) + 1 iterations the driver has returned, or
    it is in the string or the backtick state with the cursor at the end
    of the input; in that case it stays there for ever and sends nothing
    more. *)
Theorem driver_returns_or_hangs (nm inp : string) (n m : nat) :
  (2 * String.length inp + 1 <= n)%nat -> (n <= m)%nat ->
  snd (session nm inp n) = None \/
  (hung (snd (session nm inp n)) (fst (session nm inp n)) /\
   snd (session nm inp m) = snd (session nm inp n) /\
   output (fst (session nm inp m)) = output (fst (session nm inp n))).
Proof.
  intros H M. destruct (session_bound nm inp n H) as [B|B]; [now left|].
  right. split; [exact B|].
  unfold session, transform in *.
  replace m with (n + (m - n))%nat by lia. rewrite loop_add.
  destruct (loop n (Some ExpectAny) (NewLexer nm inp)) as [l st].
  cbn [fst snd] in *.
  destruct B as [[B|B] E]; subst st.
  - destruct (hung_loop (m - n) ExpectString l) as (A1 & _ & A3).
    { split; auto. }
    unfold output. now rewrite A1, A3.
  - destruct (hung_loop (m - n) ExpectLiteral l) as (A1 & _ & A3).
    { split; auto. }
    unfold output. now rewrite A1, A3.
Qed.

Lemma driver_returns_or_hangs_witness :
  (2 * String.length "* 'ab" + 1 <= 13)%nat /\ (13 <= 50)%nat /\
  snd (session "lex" "* 'ab" 13) = Some ExpectString /\
  snd (session "lex" "* 'ab" 50) = Some ExpectString /\
  output (fst (session "lex" "* 'ab" 50)) = [mkToken Star "*"].
Proof.
  assert (H : (2 * String.length "* 'ab" + 1 <= 13)%nat) by (cbn; lia).
  assert (M : (13 <= 50)%nat) by lia.
  split; [exact H|]. split; [exact M|]. split; [reflexivity|].
  destruct (driver_returns_or_hangs "lex" "* 'ab" 13 50 H M)
    as [B|(_ & B & C)]; [discriminate B|].
  split; [exact B|]. rewrite C. reflexivity.
Defined.

(** X5.  On an input without quote and without backtick the driver
    returns within 2 * len(input) + 1 iterations and closes the
    channel. *)
Theorem driver_returns (nm inp : string) (n : nat) :
  strings.IndexByte inp (rune "'") < 0 ->
  strings.IndexByte inp (rune "`") < 0 ->
  (2 * String.length inp + 1 <= n)%nat ->
  snd (session nm inp n) = None /\
  closed (tokens (fst (session nm inp n))) = true.
Proof.
  intros Q B H.
  assert (N : snd (session nm inp n) = None).
  { destruct (session_bound nm inp n H) as [N|[[N|N] _]]; [exact N| |];
      destruct (scanned_session nm inp n) as (_ & E & I & _);
      rewrite N in E; cbn [entered] in E; rewrite I in E; lia. }
  split; [exact N|]. rewrite closed_session. now rewrite N.
Qed.

Lemma driver_returns_witness :
  strings.IndexByte "a <> 1.5, b" (rune "'") < 0 /\
  strings.IndexByte "a <> 1.5, b" (rune "`") < 0 /\
  (2 * String.length "a <> 1.5, b" + 1 <= 23)%nat /\
  snd (session "lex" "a <> 1.5, b" 23) = None.
Proof.
  assert (Q : strings.IndexByte "a <> 1.5, b" (rune "'") < 0)
    by reflexivity.
  assert (B : strings.IndexByte "a <> 1.5, b" (rune "`") < 0)
    by reflexivity.
  assert (H : (2 * String.length "a <> 1.5, b" + 1 <= 23)%nat)
    by (cbn; lia).
  split; [exact Q|]. split; [exact B|]. split; [exact H|].
  exact (proj1 (driver_returns "lex" "a <> 1.5, b" 23 Q B H)).
Defined.

(** Dispatch at the end of the input. *)
Lemma dispatch_end (l : Lexer) :
  len (input l) <= pos l -> expectAny l = (emit EOF l, None).
Proof.
  intros H. pose proof (expectAny_fuel_eq l) as E.
  cbn [expectAny_fuel] in E.
  replace (len (input l) <=? pos l) with true in E by lia.
  now injection E.
Qed.

(** One step of dispatch on a code point other than the comma, with the
    tests on the code point left to evaluate. *)
Ltac dispatch_step l E :=
  let B := fresh "Bd" in
  let C := fresh "Cm" in
  let L' := fresh "Ln" in
  assert (B : pos l < len (input l)) by (apply peek_not_end; runes; lia);
  assert (C : peek l <> rune ",") by (runes; lia);
  pose proof (expectAny_unfold l B C) as E;
  cbn [expectAny_fuel] in E;
  assert (L' : (len (input l) <=? pos l) = false) by lia;
  rewrite L', next_advance in E;
  unfold isDigit, isLetter in E; runes.

Lemma dispatch_blank (l : Lexer) :
  peek l = rune " " \/ peek l = rune newline ->
  expectAny l = (ignore (advance l), Some ExpectAny).
Proof.
  intros P. unfold newline in P. runes.
  dispatch_step l E.
  replace (peek l =? 39) with false in E by lia.
  replace (peek l =? 96) with false in E by lia.
  replace ((peek l =? 32) || (peek l =? 10)) with true in E by lia.
  now injection E.
Qed.

Lemma dispatch_digit (l : Lexer) :
  start l = pos l -> isDigit (peek l) = true ->
  expectAny l = (l, Some ExpectNumber).
Proof.
  intros SP L. unfold isDigit in L. runes.
  dispatch_step l E.
  rewrite (backup_advance l SP) in E.
  repeat match type of E with
  | context [peek l =? ?v] =>
    replace (peek l =? v) with false in E by lia
  end.
  cbn [orb] in E.
  replace ((48 <=? peek l) && (peek l <=? 57)) with true in E by lia.
  now injection E.
Qed.

Lemma dispatch_unrecognized (l : Lexer) :
  pos l < len (input l) -> recognized (peek l) = false ->
  expectAny l = (advance l, None).
Proof.
  intros L R. unfold recognized in R.
  repeat match type of R with
  | (_ || _) = false => apply orb_false_elim in R; destruct R as [R ?]
  end.
  assert (C : peek l <> rune ",") by now apply Z.eqb_neq.
  pose proof (expectAny_unfold l L C) as E.
  cbn [expectAny_fuel] in E.
  assert (L' : (len (input l) <=? pos l) = false) by lia.
  rewrite L', next_advance in E.
  repeat match goal with
  | H : (_ =? _) = false |- _ => rewrite H in E; clear H
  | H : isDigit _ = false |- _ => rewrite H in E; clear H
  | H : isLetter _ = false |- _ => rewrite H in E; clear H
  end.
  cbn [orb] in E. now injection E.
Qed.

(** After a comma dispatch sends the token and calls itself. *)
Lemma expectAny_comma (l : Lexer) :
  peek l = rune "," -> expectAny l = expectAny (emit Sep (advance l)).
Proof.
  intros P.
  assert (Q : peek l < 128) by (rewrite P; reflexivity).
  pose proof (peek_not_end l Q) as B.
  pose proof (expectAny_fuel_eq l) as E.
  cbn [expectAny_fuel] in E.
  assert (L' : (len (input l) <=? pos l) = false) by lia.
  rewrite L', next_advance, P in E.
  cbn [Z.eqb rune byte orb] in E.
  pose proof (expectAny_fuel_eq (emit Sep (advance l))) as E1.
  replace (S (remaining (emit Sep (advance l)))) with (remaining l) in E1.
  - rewrite E1 in E. now injection E.
  - change (remaining (emit Sep (advance l))) with (remaining (advance l)).
    rewrite remaining_advance by assumption. unfold remaining. lia.
Qed.

Lemma blank_loop (k : nat) (l : Lexer) :
  start l = pos l -> 0 <= pos l ->
  blank (from (input l) (pos l)) = true ->
  remaining l = k ->
  snd (loop (S k) (Some ExpectAny) l) = None /\
  output (fst (loop (S k) (Some ExpectAny) l)) =
    (output l ++ [mkToken EOF ""])%list.
Proof.
  revert l. induction k as [|k IH]; intros l SP P0 B R.
  - cbn [loop call]. rewrite dispatch_end by now apply remaining_0.
    cbn [loop fst snd]. split; [reflexivity|].
    unfold emit, output. cbn. now rewrite (cache_entry l SP).
  - assert (L : pos l < len (input l)) by (unfold remaining in R; lia).
    destruct (from (input l) (pos l)) as [|c rest] eqn:F.
    { assert (G : len (from (input l) (pos l)) = len (input l) - pos l)
        by (apply len_from; lia).
      rewrite F in G. unfold len at 1 in G. cbn in G. lia. }
    cbn [blank] in B. apply andb_prop in B. destruct B as [B1 B2].
    assert (Pk : peek l = byte c).
    { unfold peek. rewrite F. rewrite decode_ascii; [reflexivity|].
      unfold is_blank, newline in B1. runes. lia. }
    assert (Pb : peek l = rune " " \/ peek l = rune newline).
    { rewrite Pk. unfold is_blank in B1. lia. }
    assert (W : width l = 1).
    { apply width_low. unfold newline in Pb. runes. lia. }
    change (loop (S (S k)) (Some ExpectAny) l)
      with (let '(l', state') := call ExpectAny l in loop (S k) state' l').
    cbn [call]. rewrite (dispatch_blank l Pb).
    change (output l) with (output (ignore (advance l))).
    apply IH.
    + reflexivity.
    + fields. lia.
    + fields. rewrite W. rewrite <- (from_from _ (pos l) 1) by lia.
      now rewrite F.
    + change (remaining (ignore (advance l))) with (remaining (advance l)).
      rewrite remaining_advance; [lia|].
      unfold newline in Pb. runes. lia.
Qed.

(** X6.  An input made of spaces and newlines only (the empty input
    included) gives the EOF token with the empty literal and nothing
    else, after one call of dispatch per byte and one more; the driver
    then returns, and the first call of Tokenize gives this token and the
    error "EOF". *)
Theorem blank_input (nm inp : string) :
  blank inp = true ->
  let r := session nm inp (S (String.length inp)) in
  snd r = None /\
  output (fst r) = [mkToken EOF ""] /\
  closed (tokens (fst r)) = true /\
  Tokenize (fst r) 0 = Some (mkToken EOF "", Some "EOF").
Proof.
  intros B r.
  destruct (blank_loop (String.length inp) (NewLexer nm inp))
    as [H1 H2]; try reflexivity; try exact B.
  { unfold remaining, len. cbn [input pos NewLexer]. lia. }
  fold (transform (S (String.length inp)) (NewLexer nm inp)) in H1, H2.
  fold (session nm inp (S (String.length inp))) in H1, H2. fold r in H1, H2.
  change (output (NewLexer nm inp)) with (@nil Token) in H2.
  cbn [app] in H2.
  assert (C : closed (tokens (fst r)) = true).
  { unfold r. rewrite closed_session. fold r. now rewrite H1. }
  repeat split; auto.
  unfold Tokenize, recv. unfold output in H2. rewrite H2. reflexivity.
Qed.

Lemma blank_input_witness :
  blank "  " = true /\
  snd (session "lex" "  " 3) = None /\
  output (fst (session "lex" "  " 3)) = [mkToken EOF ""].
Proof.
  assert (B : blank "  " = true) by reflexivity.
  split; [exact B|].
  destruct (blank_input "lex" "  " B) as (H1 & H2 & _).
  split; [exact H1|exact H2].
Defined.

(** X7.  A word found by dispatch that is, in upper case, one of the
    eighteen keywords gives within two calls one token of the kind of
    the keyword; its literal is the word as written in the input, all
    its letters and no more; the scanner is back in dispatch after the
    word. *)
Theorem keyword_recognized (l : Lexer) (k : TokenType) :
  inv l -> start l = pos l -> isLetter (peek l) = true ->
  let word := slice (input l) (pos l) (pos (letters l)) in
  keyword (strings.ToUpper word) = Some k ->
  snd (transform 2 l) = Some ExpectAny /\
  output (fst (transform 2 l)) = (output l ++ [mkToken k word])%list /\
  letters_only word = true /\
  pos l + 1 <= pos (fst (transform 2 l)) /\
  start (fst (transform 2 l)) = pos (fst (transform 2 l)) /\
  pos (fst (transform 2 l)) = pos l + len word /\
  isLetter (peek (fst (transform 2 l))) = false.
Proof.
  intros V SP L word K.
  pose proof (letters_fuel_advanced (remaining l) l V) as A.
  fold (letters l) in A.
  pose proof (letters_progress l V L) as G.
  pose proof (letters_exit l) as X.
  pose proof (letters_fuel_slice (remaining l) l V) as W.
  fold (letters l) in W. fold word in W.
  destruct A as (A1 & A2 & A3 & A4 & A5 & A6).
  assert (C : cache (letters l) = word).
  { unfold cache, word. now rewrite A2, A3, SP. }
  assert (Ln : len word = pos (letters l) - pos l).
  { unfold word. apply len_slice; [|assumption]. destruct V. lia. }
  assert (T : transform 2 l = (emit k (letters l), Some ExpectAny)).
  { unfold transform. cbn [loop call]. rewrite (dispatch_letter l SP L).
    cbn [loop call]. unfold expectKeyword. rewrite C, K. reflexivity. }
  rewrite T. cbn [fst snd].
  split; [reflexivity|]. split.
  { unfold emit, output. cbn. now rewrite C, A4. }
  split; [exact W|]. fields.
  split; [exact G|]. split; [reflexivity|]. split; [lia|exact X].
Qed.

Lemma keyword_recognized_witness :
  output (fst (transform 2 (NewLexer "lex" "Select*"))) =
    [mkToken Select "Select"] /\
  pos (fst (transform 2 (NewLexer "lex" "Select*"))) = 6.
Proof.
  assert (V : inv (NewLexer "lex" "Select*"))
    by (unfold inv; cbn; lia).
  assert (SP : start (NewLexer "lex" "Select*") =
               pos (NewLexer "lex" "Select*")) by reflexivity.
  assert (L : isLetter (peek (NewLexer "lex" "Select*")) = true)
    by reflexivity.
  assert (K : keyword (strings.ToUpper
                 (slice (input (NewLexer "lex" "Select*"))
                    (pos (NewLexer "lex" "Select*"))
                    (pos (letters (NewLexer "lex" "Select*"))))) =
              Some Select) by reflexivity.
  destruct (keyword_recognized (NewLexer "lex" "Select*") Select V SP L K)
    as (_ & H & _ & _ & _ & P & _).
  split; [exact H|exact P].
Defined.

(** The bytes consumed by a loop of [expectNumber] are digits. *)
Lemma digits_fuel_slice (fuel : nat) (l : Lexer) :
  inv l ->
  digits_only (slice (input l) (pos l) (pos (digits_fuel fuel l))) = true.
Proof.
  revert l. induction fuel as [|fuel IH]; intros l V; cbn [digits_fuel].
  - now rewrite slice_empty.
  - destruct (isDigit (peek l)) eqn:L; [|now rewrite slice_empty].
    rewrite next_advance. cbn [snd].
    destruct (peek_low l (isDigit_low _ L)) as (c & rest & F & B & W).
    pose proof (inv_advance l V) as V1.
    pose proof (digits_fuel_advanced fuel (advance l) V1)
      as (_ & _ & _ & _ & A & _).
    specialize (IH (advance l) V1).
    cbn [pos advance set_pos input] in IH, A. rewrite W in IH, A.
    destruct V as (V0 & V2 & V3).
    rewrite (slice_head _ _ _ c rest); auto; [|lia].
    cbn [digits_only]. now rewrite B, L, IH.
Qed.

Lemma digits_stay (l : Lexer) : isDigit (peek l) = false -> digits l = l.
Proof.
  intros H. unfold digits. destruct (remaining l); cbn [digits_fuel];
    [reflexivity|]. now rewrite H.
Qed.

Lemma digits_tail (s : string) : digits_only s = true -> number_tail s = true.
Proof.
  induction s as [|c s IH]; cbn; [reflexivity|].
  intros H. apply andb_prop in H. destruct H as [H1 H2].
  rewrite H1. now apply IH.
Qed.

Lemma number_tail_app (a b : string) :
  digits_only a = true -> number_tail b = true -> number_tail (a ++ b) = true.
Proof.
  induction a as [|c a IH]; cbn; [auto|].
  intros H B. apply andb_prop in H. destruct H as [H1 H2].
  rewrite H1. now apply IH.
Qed.

Lemma IndexByte_app_found (a b : string) (c : ascii) :
  0 <= strings.IndexByte (a ++ String.String c b) (byte c).
Proof.
  induction a as [|d a IH]; cbn [append strings.IndexByte].
  - now rewrite Z.eqb_refl.
  - destruct (byte d =? byte c); [lia|].
    destruct (strings.IndexByte (a ++ String.String c b) (byte c) <? 0)
      eqn:E; lia.
Qed.

(** X8.  A digit found by dispatch gives within two calls one Number
    token: its literal is the longest run of digits from the cursor,
    with a dot and the digits after it when a dot follows the run (the
    literal may end in the dot); the scanner is back in dispatch, on a
    code point that is not a digit, and not a dot unless the literal has
    one already. *)
Theorem number_scanned (l : Lexer) :
  inv l -> start l = pos l -> isDigit (peek l) = true ->
  let l' := fst (transform 2 l) in
  let lit := slice (input l) (pos l) (pos l') in
  snd (transform 2 l) = Some ExpectAny /\
  output l' = (output l ++ [mkToken Number lit])%list /\
  number_shape lit = true /\
  start l' = pos l' /\ pos l' = pos l + len lit /\
  isDigit (peek l') = false /\
  (peek l' = rune "." -> 0 <= strings.IndexByte lit (rune ".")).
Proof.
  intros V SP L.
  assert (T : transform 2 l = expectNumber l).
  { unfold transform. cbn [loop call]. rewrite (dispatch_digit l SP L).
    cbn [loop call]. unfold expectNumber. reflexivity. }
  rewrite T. clear T. unfold expectNumber.
  pose proof (digits_progress l V L) as G.
  pose proof (digits_fuel_slice (remaining l) l V) as D1.
  fold (digits l) in D1.
  pose proof (digits_exit l) as X1.
  set (l1 := digits l) in *.
  assert (A1 : advanced l l1) by now apply digits_fuel_advanced.
  assert (V1 : inv l1) by (eapply advanced_inv; eauto).
  set (l2 := if peek l1 =? rune "." then snd (next l1) else l1).
  assert (A2 : advanced l1 l2).
  { subst l2. destruct (peek l1 =? rune ".").
    - rewrite next_advance; cbn [snd]. now apply advance_advanced.
    - now apply advanced_refl. }
  assert (V2 : inv l2) by (eapply advanced_inv; eauto).
  pose proof (digits_fuel_slice (remaining l2) l2 V2) as D3.
  fold (digits l2) in D3.
  pose proof (digits_exit l2) as X3.
  set (l3 := digits l2) in *.
  assert (A3 : advanced l2 l3) by now apply digits_fuel_advanced.
  cbn [fst snd]. fields.
  set (lit := slice (input l) (pos l) (pos l3)).
  destruct A1 as (N1 & I1 & S1 & T1 & P1 & Q1).
  destruct A2 as (N2 & I2 & S2 & T2 & P2 & Q2).
  destruct A3 as (N3 & I3 & S3 & T3 & P3 & Q3).
  rewrite I2, I1 in D3. rewrite I1 in Q2. rewrite I2, I1 in Q3.
  destruct V as (V0 & V4 & V5).
  assert (E : lit = slice (input l) (pos l) (pos l1)
                    ++ slice (input l) (pos l1) (pos l2)
                    ++ slice (input l) (pos l2) (pos l3)).
  { unfold lit.
    rewrite (slice_app _ (pos l1) (pos l2) (pos l3)) by lia.
    now rewrite (slice_app _ (pos l) (pos l1) (pos l3)) by lia. }
  assert (C : cache l3 = lit).
  { unfold cache, lit. now rewrite I3, I2, I1, S3, S2, S1, SP. }
  assert (Ln : len lit = pos l3 - pos l).
  { unfold lit. apply len_slice; lia. }
  destruct (peek_low l (isDigit_low _ L)) as (c & rest & F & B & W).
  assert (H1 : slice (input l) (pos l) (pos l1) =
               String.String c (slice (input l) (pos l + 1) (pos l1))).
  { apply (slice_head _ _ _ c rest); auto; lia. }
  rewrite H1 in D1. cbn [digits_only] in D1. apply andb_prop in D1.
  destruct D1 as [D0 D1].
  assert (M : (peek l1 <> rune "." /\ l2 = l1) \/
              (peek l1 = rune "." /\
               slice (input l) (pos l1) (pos l2) = ".")).
  { subst l2. destruct (peek l1 =? rune ".") eqn:Pd.
    - right. apply Z.eqb_eq in Pd. split; [exact Pd|].
      assert (Lo : peek l1 < 128) by (rewrite Pd; reflexivity).
      destruct (peek_low l1 Lo) as (d & rest1 & F1 & B1 & W1).
      rewrite next_advance. cbn [snd]. fields. rewrite W1.
      rewrite I1 in F1.
      rewrite (slice_head _ _ _ d rest1); auto; try lia.
      rewrite slice_empty. f_equal.
      rewrite Pd in B1.
      assert (Ed : N_of_ascii d = N_of_ascii ".").
      { unfold byte, rune, byte in B1. lia. }
      rewrite <- (ascii_N_embedding d), Ed. reflexivity.
    - left. apply Z.eqb_neq in Pd. auto. }
  split; [reflexivity|]. split.
  { unfold emit, output. cbn. now rewrite C, T3, T2, T1. }
  split.
  { rewrite E, H1. cbn [append number_shape]. rewrite D0. cbn [andb].
    apply number_tail_app; [exact D1|].
    destruct M as [[_ M]|[_ M]].
    - replace (slice (input l) (pos l1) (pos l2)) with ""
        by (rewrite M; now rewrite slice_empty).
      cbn [append]. now apply digits_tail.
    - rewrite M. cbn [append number_tail]. exact D3. }
  split; [reflexivity|]. split; [lia|]. split; [exact X3|].
  intros Pd. destruct M as [[M1 M2]|[_ M]].
  - exfalso. apply M1. revert Pd. unfold l3. rewrite M2.
    now rewrite (digits_stay l1 X1).
  - rewrite E, M. apply (IndexByte_app_found _ _ "."%char).
Qed.

Lemma number_scanned_witness :
  output (fst (transform 2 (NewLexer "lex" "12.50.3"))) =
    [mkToken Number "12.50"] /\
  output (fst (transform 2 (NewLexer "lex" "7.x"))) = [mkToken Number "7."].
Proof.
  assert (V : forall s, inv (NewLexer "lex" s)).
  { intros s. unfold inv. cbn. pose proof (len_nonneg s). lia. }
  split.
  - exact (proj1 (proj2 (number_scanned (NewLexer "lex" "12.50.3")
                           (V _) eq_refl eq_refl))).
  - exact (proj1 (proj2 (number_scanned (NewLexer "lex" "7.x")
                           (V _) eq_refl eq_refl))).
Defined.

Lemma after_commas_0 (l : Lexer) : start l = pos l -> after_commas 0 l = l.
Proof.
  destruct l as [nm inp s p [snt cl]]. cbn [start pos]. intros ->.
  unfold after_commas, seps. cbn. now rewrite Z.add_0_r, app_nil_r.
Qed.

Lemma after_commas_S (k : nat) (l : Lexer) (rest : string) :
  start l = pos l -> 0 <= pos l ->
  from (input l) (pos l) = String.String "," rest ->
  peek l = rune "," /\
  after_commas k (emit Sep (advance l)) = after_commas (S k) l /\
  from (input (emit Sep (advance l))) (pos (emit Sep (advance l))) = rest.
Proof.
  intros SP P0 F.
  assert (P : peek l = rune ",").
  { unfold peek. rewrite F. now rewrite decode_ascii. }
  assert (W : width l = 1) by (apply width_low; rewrite P; reflexivity).
  assert (C : cache (advance l) = ",").
  { unfold cache. fields. rewrite W, SP.
    rewrite (slice_head _ _ _ ","%char rest); auto; try lia.
    now rewrite slice_empty. }
  split; [exact P|]. split.
  - unfold after_commas, emit. fields. rewrite C, W.
    unfold seps. cbn [repeat]. rewrite <- app_assoc. cbn [app].
    f_equal; try lia. 
  - fields. rewrite W. rewrite <- (from_from _ (pos l) 1) by lia.
    now rewrite F.
Qed.

(** X9.  A run of commas is consumed by one call of dispatch, which
    sends one Sep token per comma and then does what dispatch does on
    the text after the run: the run costs no iteration of the driver. *)
Theorem comma_run (k : nat) (l : Lexer) (rest : string) :
  start l = pos l -> 0 <= pos l ->
  from (input l) (pos l) = (commas k ++ rest)%string ->
  expectAny l = expectAny (after_commas k l).
Proof.
  revert l. induction k as [|k IH]; intros l SP P0 F.
  - now rewrite after_commas_0.
  - cbn [commas append] in F.
    destruct (after_commas_S k l _ SP P0 F) as (P & A & R).
    rewrite (expectAny_comma l P), <- A. apply IH.
    + reflexivity.
    + fields. pose proof (width_low l) as W. rewrite P in W.
      rewrite W by reflexivity. lia.
    + exact R.
Qed.

Lemma comma_run_witness :
  expectAny (NewLexer "lex" ",,,") =
    (mkLexer "lex" ",,," 3 3
       (mkChan [mkToken Sep ","; mkToken Sep ","; mkToken Sep ",";
                mkToken EOF ""] false), None).
Proof.
  assert (SP : start (NewLexer "lex" ",,,") = pos (NewLexer "lex" ",,,"))
    by reflexivity.
  assert (P0 : 0 <= pos (NewLexer "lex" ",,,")) by (cbn; lia).
  assert (F : from (input (NewLexer "lex" ",,,"))
                (pos (NewLexer "lex" ",,,")) = (commas 3 ++ "")%string)
    by reflexivity.
  rewrite (comma_run 3 (NewLexer "lex" ",,,") "" SP P0 F).
  reflexivity.
Defined.

(** X10.  A byte of 128 or more under the cursor of dispatch (any
    character outside ASCII, outside of a quoted literal) ends the scan:
    dispatch returns the nil state without sending a token, the driver
    closes the channel, and the rest of the input is never scanned. *)
Theorem non_ascii_stops (l : Lexer) (c : ascii) (rest : string) (n : nat) :
  from (input l) (pos l) = String.String c rest -> 128 <= byte c ->
  snd (transform (S n) l) = None /\
  output (fst (transform (S n) l)) = output l /\
  closed (tokens (fst (transform (S n) l))) = true /\
  start (fst (transform (S n) l)) = start l.
Proof.
  intros F H.
  assert (L : pos l < len (input l)).
  { destruct (Z_lt_ge_dec (pos l) (len (input l))) as [L|G]; [exact L|].
    rewrite from_end in F by lia. discriminate F. }
  pose proof (decode_high c rest H) as D. rewrite <- F in D.
  fold (peek l) in D.
  assert (R : recognized (peek l) = false).
  { unfold recognized, isDigit, isLetter, newline. runes.
    repeat match goal with
    | |- context [peek l =? ?v] =>
      replace (peek l =? v) with false by lia
    end.
    cbn [orb].
    replace (48 <=? peek l) with true by lia.
    replace (peek l <=? 57) with false by lia.
    replace (peek l <=? 122) with false by lia.
    replace (peek l <=? 90) with false by lia.
    cbn. now rewrite !andb_false_r. }
  unfold transform. cbn [loop call].
  rewrite (dispatch_unrecognized l L R), loop_None.
  cbn. auto.
Qed.

Lemma non_ascii_stops_witness :
  snd (session "lex" (String.String "233"%char "t, 1") 1) = None /\
  output (fst (session "lex" (String.String "233"%char "t, 1") 1)) = [].
Proof.
  assert (F : from (input (NewLexer "lex" (String.String "233"%char "t, 1")))
                (pos (NewLexer "lex" (String.String "233"%char "t, 1"))) =
              String.String "233"%char "t, 1") by reflexivity.
  assert (H : 128 <= byte "233"%char) by (vm_compute; discriminate).
  destruct (non_ascii_stops _ _ _ 0 F H) as (A & B & _).
  split; [exact A|exact B].
Defined.

(** X11.  An operator read by dispatch in a supported form ('=', '+',
    '-', '/', or '!', '>', '<' followed as the code expects) gives
    exactly one token, of kind Op, with the first character only: no
    diagnostic is sent, the following character is left to the next
    call, and the state returned is dispatch. *)
Theorem supported_op (l : Lexer) :
  start l = pos l -> 0 <= pos l -> simple_op (peek l) \/ supported l ->
  expectAny l = (emit Op (snd (next l)), Some ExpectAny) /\
  output (fst (expectAny l)) =
    (output l ++ [mkToken Op (slice (input l) (pos l) (pos l + 1))])%list /\
  len (slice (input l) (pos l) (pos l + 1)) = 1 /\
  start (fst (expectAny l)) = pos l + 1 /\
  pos (fst (expectAny l)) = pos l + 1.
Proof.
  intros SP P0 H.
  assert (Q : peek l < 128).
  { destruct H as [[H|[H|[H|H]]]|[[H _]|[[H _]|[H _]]]];
      rewrite H; reflexivity. }
  pose proof (peek_not_end l Q) as B.
  pose proof (width_low l Q) as W.
  assert (E : expectAny l = (emit Op (snd (next l)), Some ExpectAny)).
  { unfold supported in H. rewrite next_advance in *. cbn [snd] in *.
    destruct H as [[H|[H|[H|H]]]|[[H H']|[[H H']|[H H']]]];
      dispatch_step l E;
      rewrite H in E; cbn [Z.eqb orb andb negb] in E;
      try (injection E as E; exact E).
    - rewrite H' in E. cbn in E. now injection E.
    - destruct H' as [H'|H']; rewrite H' in E; cbn in E; now injection E.
    - destruct H' as [H'|[H'|H']]; rewrite H' in E; cbn in E;
        now injection E. }
  rewrite E. rewrite next_advance. cbn [fst snd]. fields. rewrite W.
  split; [reflexivity|]. split.
  { unfold cache. fields. now rewrite W, SP. }
  split; [|auto]. rewrite len_slice; lia.
Qed.

Lemma supported_op_witness :
  output (fst (expectAny (NewLexer "lex" ">= 1"))) = [mkToken Op ">"] /\
  pos (fst (expectAny (NewLexer "lex" ">= 1"))) = 1.
Proof.
  assert (SP : start (NewLexer "lex" ">= 1") = pos (NewLexer "lex" ">= 1"))
    by reflexivity.
  assert (P0 : 0 <= pos (NewLexer "lex" ">= 1")) by (cbn; lia).
  assert (H : simple_op (peek (NewLexer "lex" ">= 1")) \/
              supported (NewLexer "lex" ">= 1")).
  { right. right. left. split; [reflexivity|]. left. reflexivity. }
  destruct (supported_op _ SP P0 H) as (_ & A & _ & _ & B).
  split; [exact A|exact B].
Defined.

Lemma width_max (s : string) : snd (utf8.DecodeRuneInString s) <= 4.
Proof.
  destruct s as [|c0 [|c1 [|c2 [|c3 r]]]];
    unfold utf8.DecodeRuneInString; repeat split_if; cbn [snd]; lia.
Qed.

(** X12.  The cursor never leaves the input: inside the input, next
    moves the cursor forward by one to four bytes and not past the end;
    at the end of the input it returns U+FFFD and moves nothing, so a
    state that waits for a delimiter there reads U+FFFD for ever. *)
Theorem next_in_bounds (l : Lexer) :
  inv l ->
  inv (snd (next l)) /\
  start (snd (next l)) = start l /\
  tokens (snd (next l)) = tokens l /\
  (pos l < len (input l) ->
   pos l + 1 <= pos (snd (next l)) <= pos l + 4) /\
  (pos l = len (input l) ->
   fst (next l) = utf8.RuneError /\ pos (snd (next l)) = pos l /\
   next (snd (next l)) = next l).
Proof.
  intros V. rewrite next_advance. cbn [fst snd].
  split; [now apply inv_advance|].
  split; [reflexivity|]. split; [reflexivity|].
  destruct V as (V0 & V1 & V2). split.
  - intros L. fields. split.
    + pose proof (width_positive l) as W. lia.
    + pose proof (width_max (from (input l) (pos l))) as W.
      unfold width. lia.
  - intros L. destruct (peek_end l) as [E W]; [lia|].
    assert (A : advance l = l).
    { unfold advance. rewrite W, Z.add_0_r. now destruct l. }
    split; [exact E|]. rewrite !A. split; [reflexivity|].
    now rewrite next_advance, A.
Qed.

Lemma next_in_bounds_witness :
  pos (snd (next (NewLexer "lex" "ab"))) = 1 /\
  fst (next (mkLexer "lex" "ab" 0 2 make)) = utf8.RuneError.
Proof.
  split.
  - reflexivity.
  - assert (V : inv (mkLexer "lex" "ab" 0 2 make))
      by (unfold inv; cbn; lia).
    exact (proj1 (proj2 (proj2 (proj2 (proj2 (next_in_bounds _ V)))) eq_refl)).
Defined.

End gps.
